(** * Balanced risk-set matching: a shallow embedding of [Implementation.ipynb]

    The notebook defines four functions:
    - [create_risk_sets]            (risk-set builder),
    - [calculate_mahalanobis_matrix] (distance model),
    - [optimal_balanced_matching]   (assignment solver, a binary program
      handed to PuLP),
    - [sensitivity_analysis]        (sensitivity analyzer).

    Python dicts are [gmap]s, pandas frames are lists of labelled rows,
    exceptions are the [Raise] branch of a small error monad.  The floats of
    the sensitivity analyzer and the conversion of integer cells to float64
    in the risk-set builder are binary64 numbers, rounded to nearest with
    ties to even ([Binary64]).  The distances are exact numbers ([Q] in the
    binary program, [R] under the square root of the distance model).  *)

From Stdlib Require Import ZArith QArith Qround Reals Psatz List.
From stdpp Require Import base decidable option list gmap strings fin_maps.

Set Default Proof Using "Type".

(** ** Exceptions and the error monad *)

(** PuLP's [LpStatus] constants. *)
Inductive LpStatus :=
  | LpStatusOptimal
  | LpStatusNotSolved
  | LpStatusInfeasible
  | LpStatusUnbounded
  | LpStatusUndefined.

(** The exceptions the modelled code can raise ([KeyError] from a label
    lookup, [ValueError] from a shape mismatch in numpy, [ZeroDivisionError]
    from [/], [LinAlgError] from [np.linalg.inv]) together with the error
    classes of the design document, which the notebook never raises. *)
Inductive exn :=
  | KeyError
  | ValueError
  | ZeroDivisionError
  | LinAlgError
  | InvalidInputError
  | ConfigurationError
  | SolverFailure (status : LpStatus).

Inductive result (A : Type) :=
  | Ok (a : A)
  | Raise (e : exn).
Arguments Ok {A} a.
Arguments Raise {A} e.

#[global] Instance result_ret : MRet result := λ A a, Ok a.
#[global] Instance result_bind : MBind result := λ A B f m,
  match m with
  | Ok a => f a
  | Raise e => Raise e
  end.

(** [for x in l: s = body(s, x)], stopping at the first exception. *)
Fixpoint for_each {A S : Type} (body : S → A → result S) (l : list A) (s : S)
  : result S :=
  match l with
  | [] => Ok s
  | x :: l' => s' ← body s x; for_each body l' s'
  end.

(** [[f(x) for x in l]], stopping at the first exception. *)
Fixpoint map_each {A B : Type} (f : A → result B) (l : list A)
  : result (list B) :=
  match l with
  | [] => Ok []
  | x :: l' => y ← f x; ys ← map_each f l'; Ok (y :: ys)
  end.

(** [sum(g(a) for a in l)] over exact rationals. *)
Definition Qsum {A : Type} (g : A → Q) (l : list A) : Q :=
  foldr (λ a s, g a + s)%Q 0%Q l.

(** ** IEEE 754 binary64, the [float] of Python and the [float64] of numpy *)

Module Binary64.

Local Open Scope Q_scope.

(** The nearest integer, a tie going to the even one. *)
Definition rint (x : Q) : Z :=
  let f := Qfloor x in
  match Qcompare (x - inject_Z f) (1 # 2) with
  | Lt => f
  | Eq => if Z.even f then f else (f + 1)%Z
  | Gt => (f + 1)%Z
  end.

(** A finite binary64 number is [m * 2^e] with [|m| < 2^53] and
    [-1074 <= e]; multiplied by [2^1074] it is an integer with at most 53
    significant bits.  [round53 y] is the integer of that kind nearest to
    [y >= 0]: the integers themselves below [2^53] (the subnormal numbers
    and the first binade), the multiples of [2^k] from [2^(52+k)] on.  A tie
    goes to the even significand. *)
Definition round53 (y : Q) : Z :=
  let k := Z.max 0 (Z.log2 (Qfloor y) - 52) in
  (rint (y / inject_Z (2 ^ k)) * 2 ^ k)%Z.

Definition scale : Q := inject_Z (2 ^ 1074).

Definition round_pos (q : Q) : Q :=
  Qred (inject_Z (round53 (q * scale)) / scale).

(** Rounding to nearest, ties to even, with the exponent unbounded above. *)
Definition round (q : Q) : Q :=
  match Qcompare q 0 with
  | Lt => - round_pos (- q)
  | _ => round_pos q
  end.

(** A binary64 value.  The sign of a zero is not represented. *)
Inductive float64 :=
  | Finite (q : Q)
  | PInf
  | NInf
  | NaN.

Definition huge : Q := inject_Z (2 ^ 1024).

(** The largest finite binary64 number, [sys.float_info.max]. *)
Definition max_float : Q := inject_Z ((2 ^ 53 - 1) * 2 ^ 971).

(** The binary64 value of an exact number: a result that rounds to [2^1024]
    or beyond overflows to an infinity. *)
Definition of_Q (q : Q) : float64 :=
  let r := round q in
  if Qle_bool huge r then PInf
  else if Qle_bool r (- huge) then NInf
  else Finite r.

(** [x <= y] and [x < y]; every comparison with [nan] is false. *)
Definition fle (x y : float64) : Prop :=
  match x, y with
  | NaN, _ | _, NaN => False
  | NInf, _ | _, PInf => True
  | Finite a, Finite b => a <= b
  | _, _ => False
  end.

Definition flt (x y : float64) : Prop :=
  match x, y with
  | NaN, _ | _, NaN => False
  | PInf, _ | _, NInf => False
  | Finite a, Finite b => a < b
  | _, _ => True
  end.

(** [x == 0.0] *)
Definition is_zero (x : float64) : bool :=
  match x with
  | Finite q => Qeq_bool q 0
  | _ => false
  end.

(** [x + y] *)
Definition fadd (x y : float64) : float64 :=
  match x, y with
  | NaN, _ | _, NaN => NaN
  | PInf, NInf | NInf, PInf => NaN
  | PInf, _ | _, PInf => PInf
  | NInf, _ | _, NInf => NInf
  | Finite a, Finite b => of_Q (a + b)
  end.

(** [x / y] as IEEE 754 defines it, division by zero included.  A zero
    divisor counts as [+0.0]: the one zero the notebook divides by is the sum
    [1 + bias_factor], and a sum that is zero is [+0.0] under rounding to
    nearest. *)
Definition fdiv (x y : float64) : float64 :=
  match x, y with
  | NaN, _ | _, NaN => NaN
  | (PInf | NInf), (PInf | NInf) => NaN
  | PInf, Finite b => if Qle_bool 0 b then PInf else NInf
  | NInf, Finite b => if Qle_bool 0 b then NInf else PInf
  | Finite _, (PInf | NInf) => Finite 0
  | Finite a, Finite b =>
      if Qeq_bool b 0
      then match Qcompare a 0 with Eq => NaN | Gt => PInf | Lt => NInf end
      else of_Q (a / b)
  end.

End Binary64.

(** ** Cell 2: [create_risk_sets] *)

Module RiskSets.

(** A cell of a numeric column: a number, or the missing value [NaN].
    Every comparison with [NaN] is false, as in pandas. *)
Inductive cell :=
  | Num (q : Q)
  | NaN.

(** [cell == k] for a numeric literal [k]. *)
Definition cell_eq (c : cell) (k : Q) : bool :=
  match c with
  | Num q => Qeq_bool q k
  | NaN => false
  end.

(** [cell >= t]. *)
Definition cell_ge (c t : cell) : bool :=
  match c, t with
  | Num a, Num b => Qle_bool b a
  | _, _ => false
  end.

(** What the specification says of cells: the cell is the number [k]; the
    time [c] is a number greater than or equal to the time [t]. *)
Definition has_value (k : Q) (c : cell) : Prop :=
  ∃ q, c = Num q ∧ (q == k)%Q.

Definition observed_at_or_after (c t : cell) : Prop :=
  ∃ a b, c = Num a ∧ t = Num b ∧ (b <= a)%Q.

(** The dtype of a numeric column.  A missing value only occurs in a
    [float64] column. *)
Inductive dtype :=
  | int64
  | float64.

(** The conversion of a cell to [float64]: the nearest binary64 number. *)
Definition to_float64 (c : cell) : cell :=
  match c with
  | Num q => Num (Binary64.round q)
  | NaN => NaN
  end.

(** [x.astype(to)] for [x] of dtype [from].  The only conversion that occurs
    is the one from [int64] to [float64]. *)
Definition astype (from to : dtype) (c : cell) : cell :=
  match from, to with
  | int64, float64 => to_float64 c
  | _, _ => c
  end.

(** A [pd.DataFrame]: the column names with the dtype of each column, and
    the rows in order, each an index label with its cells by column name. *)
Record DataFrame := {
  columns : list string;
  dtypes : string → dtype;
  rows : list (Z * (string → cell))
}.

(** A [pd.Series] that holds a row: its labels are the column names, and all
    its values have one dtype. *)
Record Series := {
  labels : list string;
  series_dtype : dtype;
  values : string → cell
}.

(** [data[col]]: the column as a sequence, [KeyError] for an unknown name. *)
Definition getitem (data : DataFrame) (col : string) : result (list cell) :=
  if bool_decide (col ∈ columns data)
  then Ok ((λ r, r.2 col) <$> rows data)
  else Raise KeyError.

(** [data[mask]] for a row-wise boolean mask. *)
Definition where_ (data : DataFrame) (mask : (string → cell) → bool)
  : DataFrame :=
  {| columns := columns data;
     dtypes := dtypes data;
     rows := List.filter (λ r, mask r.2) (rows data) |}.

(** [data.index.tolist()] *)
Definition index (data : DataFrame) : list Z := (rows data).*1.

(** The dtype that holds the values of every column: [float64] as soon as
    one column is [float64]. *)
Definition common_dtype (data : DataFrame) : dtype :=
  if forallb (λ col, match dtypes data col with
                     | int64 => true
                     | float64 => false
                     end) (columns data)
  then int64 else float64.

(** [data.iterrows()]: the rows in order, each as a Series of the common
    dtype of the columns.  In a frame that has a [float64] column the cells
    of the [int64] columns are converted to [float64]. *)
Definition iterrows (data : DataFrame) : list (Z * Series) :=
  (λ r, (r.1,
         {| labels := columns data;
            series_dtype := common_dtype data;
            values := λ col,
              astype (dtypes data col) (common_dtype data) (r.2 col) |}))
    <$> rows data.

(** [series[label]]: the value with its dtype, [KeyError] for an unknown
    label. *)
Definition Series_getitem (s : Series) (label : string)
  : result (dtype * cell) :=
  if bool_decide (label ∈ labels s)
  then Ok (series_dtype s, values s label)
  else Raise KeyError.

(** [column >= scalar] at one cell [c] of a column of dtype [column]: two
    [int64] values are compared exactly; when one side is [float64] the other
    is converted to [float64] first. *)
Definition ge (column : dtype) (c : cell) (scalar : dtype * cell) : bool :=
  cell_ge (astype column scalar.1 c) (astype scalar.1 column scalar.2).

Definition create_risk_sets (data : DataFrame) (treatment_col time_col : string)
  : result (gmap Z (list Z)) :=
  let risk_sets := ∅ in
  _ ← getitem data treatment_col;
  let treated := where_ data (λ r, cell_eq (r treatment_col) 1) in
  for_each (λ risk_sets '(index_, treated_row),
      t ← Series_getitem treated_row time_col;
      _ ← getitem data treatment_col;
      _ ← getitem data time_col;
      let untreated :=
        where_ data (λ r, cell_eq (r treatment_col) 0 &&
                          ge (dtypes data time_col) (r time_col) t) in
      Ok (<[index_ := index untreated]> risk_sets))
    (iterrows treated) risk_sets.

(** The time of a row as the comparison [data[time_col] >= t] sees it, on
    either side: the cell itself when every column is [int64] or the time
    column is [float64], the cell converted to [float64] when the time column
    is [int64] and another column is [float64]. *)
Definition compared (data : DataFrame) (time_col : string) (c : cell) : cell :=
  astype (dtypes data time_col) (common_dtype data) c.

(** Two cells hold the same value. *)
Definition same_cell (a b : cell) : Prop :=
  match a, b with
  | Num x, Num y => (x == y)%Q
  | NaN, NaN => True
  | _, _ => False
  end.

(** No time of the table is changed on its way into the comparison. *)
Definition exact_times (data : DataFrame) (time_col : string) : Prop :=
  ∀ r, r ∈ rows data → same_cell (compared data time_col (r.2 time_col))
                                 (r.2 time_col).

(** The loop of [create_risk_sets] in pieces: [risk_sets[index]] as the body
    computes it for a treated row whose cell in [time_col] is [t], the rows
    the loop runs over, and the mapping after the loop. *)
Definition controls_at (data : DataFrame) (treatment_col time_col : string)
    (t : cell) : list Z :=
  index (where_ data
           (λ r, cell_eq (r treatment_col) 0 &&
                 cell_ge (compared data time_col (r time_col))
                         (compared data time_col t))).

Definition treated_rows (data : DataFrame) (treatment_col : string)
  : list (Z * (string → cell)) :=
  rows (where_ data (λ r, cell_eq (r treatment_col) 1)).

Definition loop_result (data : DataFrame) (treatment_col time_col : string)
  : gmap Z (list Z) :=
  foldl (λ m '(i, r), <[i := controls_at data treatment_col time_col (r time_col)]> m)
        ∅ (treated_rows data treatment_col).

(** A row given by its label and its cells; a column not listed is missing. *)
Fixpoint cell_of (cells : list (string * cell)) (col : string) : cell :=
  match cells with
  | [] => NaN
  | (name, c) :: cells' => if String.eqb col name then c else cell_of cells' col
  end.

Definition row (label : Z) (cells : list (string * cell))
  : Z * (string → cell) :=
  (label, cell_of cells).

(** The dtypes of a frame given column by column; [int64] where none is
    given. *)
Fixpoint dtype_of (dtypes : list (string * dtype)) (col : string) : dtype :=
  match dtypes with
  | [] => int64
  | (name, d) :: dtypes' => if String.eqb col name then d else dtype_of dtypes' col
  end.

(** The cohort of the notebook's last cell: five columns of integers. *)
Definition example_row (id age severity treatment time : Z)
  : Z * (string → cell) :=
  row id [("id", Num (inject_Z id)); ("age", Num (inject_Z age));
          ("severity", Num (inject_Z severity));
          ("treatment", Num (inject_Z treatment));
          ("time", Num (inject_Z time))].

Definition example_data : DataFrame :=
  {| columns := ["id"; "age"; "severity"; "treatment"; "time"];
     dtypes := dtype_of [];
     rows := [ example_row 0 25 1 0 3; example_row 1 30 2 0 4;
               example_row 2 35 3 0 5; example_row 3 40 4 1 6;
               example_row 4 45 5 0 7; example_row 5 50 6 0 8;
               example_row 6 55 7 0 9; example_row 7 60 8 1 10;
               example_row 8 65 9 0 11; example_row 9 70 10 0 12 ] |}%Z.

(** A table with a treatment value that is neither 1 nor 0 (row 2) and a
    missing time (row 3), which makes the time column [float64]. *)
Definition malformed_data : DataFrame :=
  {| columns := ["treatment"; "time"];
     dtypes := dtype_of [("time", float64)];
     rows := [ row 0 [("treatment", Num 1); ("time", Num 5)];
               row 1 [("treatment", Num 0); ("time", Num 7)];
               row 2 [("treatment", Num 2); ("time", Num 9)];
               row 3 [("treatment", Num 0); ("time", NaN)] ] |}.

(** Two treated subjects without an eligible control: subject 0 is treated
    after every control was last seen, subject 2 has no treatment time. *)
Definition late_treatment_data : DataFrame :=
  {| columns := ["treatment"; "time"];
     dtypes := dtype_of [("time", float64)];
     rows := [ row 0 [("treatment", Num 1); ("time", Num 20)];
               row 1 [("treatment", Num 0); ("time", Num 7)];
               row 2 [("treatment", Num 1); ("time", NaN)] ] |}.

(** A table in which the label 5 is used by two treated rows. *)
Definition relabelled_data : DataFrame :=
  {| columns := ["treatment"; "time"];
     dtypes := dtype_of [];
     rows := [ row 5 [("treatment", Num 1); ("time", Num 3)];
               row 6 [("treatment", Num 0); ("time", Num 4)];
               row 5 [("treatment", Num 1); ("time", Num 9)];
               row 7 [("treatment", Num 0); ("time", Num 10)] ] |}.

(** Integer times beyond [2^53] in a frame that also has a [float64] column:
    subject 0 is treated at [2^53 + 1], subject 1 is untreated and last seen
    at [2^53], one time unit earlier. *)
Definition rounded_times_data : DataFrame :=
  {| columns := ["treatment"; "time"; "dose"];
     dtypes := dtype_of [("dose", float64)];
     rows := [ row 0 [("treatment", Num 1);
                      ("time", Num (inject_Z (2 ^ 53 + 1)));
                      ("dose", Num (1 # 2))];
               row 1 [("treatment", Num 0);
                      ("time", Num (inject_Z (2 ^ 53)));
                      ("dose", Num (1 # 2))] ] |}.

(** The same table without the [float64] column. *)
Definition integer_times_data : DataFrame :=
  {| columns := ["treatment"; "time"];
     dtypes := dtype_of [];
     rows := [ row 0 [("treatment", Num 1);
                      ("time", Num (inject_Z (2 ^ 53 + 1)))];
               row 1 [("treatment", Num 0);
                      ("time", Num (inject_Z (2 ^ 53)))] ] |}.

End RiskSets.

(** ** Cell 3: [calculate_mahalanobis_matrix] *)

Module Mahalanobis.

Local Open Scope R_scope.

(** A float as numpy returns it from [np.sqrt]: a number, or [nan] (the
    square root of a negative number).  [nan] is equal to nothing. *)
Inductive float :=
  | Finite (r : R)
  | NaN.

(** A two-dimensional [np.ndarray]: its shape and its entries. *)
Record ndarray := {
  shape : nat * nat;
  entry : nat → nat → R
}.

(** The frame of covariates: the column names, and the rows in order, each
    an index label with its value in every column. *)
Record DataFrame := {
  columns : list string;
  rows : list (Z * (string → R))
}.

Definition index (data : DataFrame) : list Z := (rows data).*1.

Definition Rsum (l : list R) : R := foldr Rplus 0 l.

(** [data.loc[i]]: the rows labelled [i], each as the sequence of its values;
    [KeyError] when there is none. *)
Definition loc (data : DataFrame) (i : Z) : result (list (list R)) :=
  match List.filter (λ r : Z * (string → R), bool_decide (r.1 = i)) (rows data) with
  | [] => Raise KeyError
  | selected => Ok ((λ r : Z * (string → R), r.2 <$> columns data) <$> selected)
  end.

(** scipy's [_validate_vector]: "Input vector should be 1-D." *)
Definition validate_vector (u : list (list R)) : result (list R) :=
  match u with
  | [v] => Ok v
  | _ => Raise ValueError
  end.

(** [u - v] on vectors of one length. *)
Definition sub (u v : list R) : result (list R) :=
  if decide (length u = length v) then Ok (zip_with Rminus u v)
  else Raise ValueError.

(** [np.dot(v, M)] for a vector and a matrix. *)
Definition dot_vector_matrix (v : list R) (M : ndarray) : result (list R) :=
  if decide (length v = (shape M).1)
  then Ok ((λ j, Rsum (imap (λ i a, a * entry M i j) v)) <$> seq 0 (shape M).2)
  else Raise ValueError.

(** [np.dot(u, v)] for two vectors. *)
Definition dot (u v : list R) : result R :=
  if decide (length u = length v) then Ok (Rsum (zip_with Rmult u v))
  else Raise ValueError.

(** [np.sqrt] *)
Definition np_sqrt (m : R) : float :=
  if Rlt_dec m 0 then NaN else Finite (sqrt m).

(** [scipy.spatial.distance.mahalanobis(u, v, VI)]:
    [delta = u - v; m = np.dot(np.dot(delta, VI), delta); return np.sqrt(m)] *)
Definition mahalanobis (u v : list (list R)) (VI : ndarray) : result float :=
  u ← validate_vector u;
  v ← validate_vector v;
  delta ← sub u v;
  w ← dot_vector_matrix delta VI;
  m ← dot w delta;
  Ok (np_sqrt m).

Section calculate.
(** [np.linalg.inv], the inverse computed by numpy: a parameter. *)
Variable linalg_inv : ndarray → result ndarray.

Definition calculate_mahalanobis_matrix (data : DataFrame)
    (cov_matrix : ndarray) : result (gmap (Z * Z) float) :=
  let dist_matrix := ∅ in
  for_each (λ dist_matrix i,
      for_each (λ dist_matrix j,
          u ← loc data i;
          v ← loc data j;
          VI ← linalg_inv cov_matrix;
          dist ← mahalanobis u v VI;
          Ok (<[(i, j) := dist]> dist_matrix))
        (index data) dist_matrix)
    (index data) dist_matrix.

End calculate.

(** [delta VI delta^T], the number under the square root. *)
Definition quadratic_form (VI : ndarray) (delta : list R) : R :=
  Rsum (zip_with Rmult
          ((λ j, Rsum (imap (λ i a, a * entry VI i j) delta)) <$>
             seq 0 (shape VI).2)
          delta).

(** The covariates of the subject labelled [i], and the distance the loop
    stores for the labels [i] and [j]. *)
Definition vector_at (data : DataFrame) (i : Z) : list R :=
  match List.filter (λ r : Z * (string → R), bool_decide (r.1 = i)) (rows data)
  with
  | r :: _ => r.2 <$> columns data
  | [] => []
  end.

Definition distance_at (data : DataFrame) (VI : ndarray) (i j : Z) : float :=
  np_sqrt (quadratic_form VI
             (zip_with Rminus (vector_at data i) (vector_at data j))).

(** The inverse of a 2 x 2 matrix in closed form: what [np.linalg.inv]
    computes for two covariates. *)
Definition inv_2x2 (M : ndarray) : result ndarray :=
  if decide (shape M = (2, 2)%nat) then
    let det := entry M 0 0 * entry M 1 1 - entry M 0 1 * entry M 1 0 in
    if Req_dec_T det 0 then Raise LinAlgError
    else Ok {| shape := (2, 2)%nat;
               entry := λ i j,
                 match i, j with
                 | O, O => entry M 1 1 / det
                 | O, _ => - entry M 0 1 / det
                 | _, O => - entry M 1 0 / det
                 | _, _ => entry M 0 0 / det
                 end |}
  else Raise LinAlgError.

(** Three subjects of the notebook's cohort with their two covariates, and
    a covariance matrix of two independent covariates. *)
Definition example_covariates : DataFrame :=
  {| columns := ["age"; "severity"];
     rows := [ (0%Z, λ col, if String.eqb col "age" then 25 else 1);
               (1%Z, λ col, if String.eqb col "age" then 30 else 2);
               (2%Z, λ col, if String.eqb col "age" then 35 else 3) ] |}.

Definition example_cov_matrix : ndarray :=
  {| shape := (2, 2)%nat;
     entry := λ i j, match i, j with
                     | O, O => 25
                     | S O, S O => 1
                     | _, _ => 0
                     end |}.


(** The example cohort with the label 1 used twice. *)
Definition repeated_label_covariates : DataFrame :=
  {| columns := ["age"; "severity"];
     rows := [ (0%Z, λ col, if String.eqb col "age" then 25 else 1);
               (1%Z, λ col, if String.eqb col "age" then 30 else 2);
               (1%Z, λ col, if String.eqb col "age" then 35 else 3) ] |}.

(** The example cohort with the age as only covariate. *)
Definition age_only : DataFrame :=
  {| columns := ["age"];
     rows := [ (0%Z, λ _, 25); (1%Z, λ _, 30) ] |}.

End Mahalanobis.

(** ** Cell 4: [optimal_balanced_matching] *)

Module Matching.

Local Open Scope Q_scope.

(** A decision variable [match_vars[t, c]], named by its key.  Every
    variable is created with [LpVariable(..., 0, 1, cat="Binary")]. *)
Definition LpVariable : Type := Z * Z.

(** A linear expression [lpSum(a * x for ...)]: its terms in order. *)
Definition LpAffineExpression : Type := list (LpVariable * Q).

Inductive LpConstraintSense :=
  | LpConstraintLE
  | LpConstraintEQ.

(** [lhs == rhs] or [lhs <= rhs]. *)
Record LpConstraint := {
  lhs : LpAffineExpression;
  sense : LpConstraintSense;
  rhs : Q
}.

(** [LpProblem("Optimal_Matching", LpMinimize)] after the [+=] statements. *)
Record LpProblem := {
  objective : LpAffineExpression;
  constraints : list LpConstraint
}.

(** [prob.variables()]: the variables of the objective and of the
    constraints, each once. *)
Definition variables (prob : LpProblem) : list LpVariable :=
  remove_dups ((objective prob).*1 ++ (c ← constraints prob; (lhs c).*1)).

(** The external solver behind [prob.solve()]: it returns a status and gives
    every variable a value. *)
Definition Solver : Type := LpProblem → LpStatus * (LpVariable → Q).

(** [distance_matrix.loc[t, c]], [KeyError] for an unknown label. *)
Definition loc (distance_matrix : gmap (Z * Z) Q) (t c : Z) : result Q :=
  match distance_matrix !! (t, c) with
  | Some d => Ok d
  | None => Raise KeyError
  end.

(** [(t, c) for t, controls in risk_sets.items() for c in controls] *)
Definition pairs (risk_sets : gmap Z (list Z)) : list LpVariable :=
  '(t, controls) ← map_to_list risk_sets; c ← controls; [(t, c)].

(** [lpSum(match_vars[v] for v in vs)] *)
Definition lpSum_vars (vs : list LpVariable) : LpAffineExpression :=
  (λ v, (v, 1)) <$> vs.

(** Lines 149-150: [lpSum(match_vars[t, c] for c in risk_sets[t]) == 1] for
    every key [t] of [risk_sets]. *)
Definition exactly_one_control (risk_sets : gmap Z (list Z))
  : list LpConstraint :=
  (λ '(t, controls),
     {| lhs := lpSum_vars ((λ c, (t, c)) <$> controls);
        sense := LpConstraintEQ; rhs := 1 |}) <$> map_to_list risk_sets.

(** Line 152: [set(c for controls in risk_sets.values() for c in controls)] *)
Definition all_controls (risk_sets : gmap Z (list Z)) : gset Z :=
  list_to_set ('(_, controls) ← map_to_list risk_sets; controls).

(** Lines 153-154:
    [lpSum(match_vars[t, c] for t in risk_sets if c in risk_sets[t]) <= 1]
    for every control [c]. *)
Definition at_most_one_treated (risk_sets : gmap Z (list Z))
  : list LpConstraint :=
  (λ c,
     {| lhs := lpSum_vars
                 ((λ tc : Z * list Z, (tc.1, c)) <$>
                    List.filter (λ tc : Z * list Z, bool_decide (c ∈ tc.2))
                                (map_to_list risk_sets));
        sense := LpConstraintLE; rhs := 1 |}) <$>
  elements (all_controls risk_sets).

(** Lines 135-154: the program handed to the solver. *)
Definition build_problem (distance_matrix : gmap (Z * Z) Q)
    (risk_sets : gmap Z (list Z)) : result LpProblem :=
  (* Objective: Minimize the total distance between matched pairs *)
  obj ← map_each (λ '(t, c), d ← loc distance_matrix t c; Ok ((t, c), d))
                 (pairs risk_sets);
  (* Constraint: Each treated patient must be matched to exactly one control *)
  (* Constraint: Each control can only be matched to one treated patient *)
  Ok {| objective := obj;
        constraints := exactly_one_control risk_sets ++
                       at_most_one_treated risk_sets |}.

(** Lines 158-163: the dict comprehension over the solved variables. *)
Definition extract_matches (risk_sets : gmap Z (list Z))
    (value : LpVariable → Q) : gmap Z Z :=
  foldl (λ matches '(t, controls),
           foldl (λ matches c,
                    if Qeq_bool (value (t, c)) 1 then <[t := c]> matches
                    else matches)
                 matches controls)
        ∅ (map_to_list risk_sets).

(** The status returned by [prob.solve()] is dropped; [penalty_factor] is
    not used. *)
Definition optimal_balanced_matching (solve : Solver)
    (distance_matrix : gmap (Z * Z) Q) (risk_sets : gmap Z (list Z))
    (penalty_factor : Q) : result (gmap Z Z) :=
  prob ← build_problem distance_matrix risk_sets;
  let '(_, value) := solve prob in
  let matches := extract_matches risk_sets value in
  Ok matches.

(** *** What a solution of the program is *)

(** The value of a linear expression under an assignment of the variables. *)
Definition eval (x : LpVariable → Q) (e : LpAffineExpression) : Q :=
  Qsum (λ term, term.2 * x term.1) e.

Definition binary (x : LpVariable → Q) (v : LpVariable) : Prop :=
  x v == 0 ∨ x v == 1.

Definition satisfies (x : LpVariable → Q) (c : LpConstraint) : Prop :=
  match sense c with
  | LpConstraintLE => eval x (lhs c) <= rhs c
  | LpConstraintEQ => eval x (lhs c) == rhs c
  end.

Definition feasible (prob : LpProblem) (x : LpVariable → Q) : Prop :=
  (∀ v, v ∈ variables prob → binary x v) ∧
  Forall (satisfies x) (constraints prob).

(** The contract of an exact solver of binary programs: [Optimal] is
    reported exactly when the program has a solution, and the values then
    form a solution of least objective.  Nothing is promised about the
    values under another status. *)
Definition exact_solver (solve : Solver) : Prop :=
  ∀ prob,
    ((solve prob).1 = LpStatusOptimal →
       feasible prob (solve prob).2 ∧
       ∀ y, feasible prob y →
            eval (solve prob).2 (objective prob) <= eval y (objective prob)) ∧
    ((∃ y, feasible prob y) → (solve prob).1 = LpStatusOptimal).

(** *** A reference solver: exhaustive search over the 0/1 assignments *)

Fixpoint sublists {A : Type} (l : list A) : list (list A) :=
  match l with
  | [] => [[]]
  | a :: l' => sublists l' ++ (cons a <$> sublists l')
  end.

(** The assignment that sets exactly the variables of [ones] to 1. *)
Definition indicator (ones : list LpVariable) : LpVariable → Q :=
  λ v, if bool_decide (v ∈ ones) then 1 else 0.

Definition satisfiesb (x : LpVariable → Q) (c : LpConstraint) : bool :=
  match sense c with
  | LpConstraintLE => Qle_bool (eval x (lhs c)) (rhs c)
  | LpConstraintEQ => Qeq_bool (eval x (lhs c)) (rhs c)
  end.

Fixpoint argmin {A : Type} (f : A → Q) (best : A) (l : list A) : A :=
  match l with
  | [] => best
  | a :: l' => argmin f (if Qle_bool (f best) (f a) then best else a) l'
  end.

(** Every 0/1 assignment of the variables is tried; the first of least
    objective among those that satisfy the rows is returned with [Optimal].
    When there is none the status is [Infeasible] and every value is 0 (a
    choice of this solver: the contract leaves these values open). *)
Definition exhaustive_solve : Solver := λ prob,
  let candidates :=
    List.filter (λ ones, forallb (satisfiesb (indicator ones)) (constraints prob))
                (sublists (variables prob)) in
  match candidates with
  | [] => (LpStatusInfeasible, λ _, 0)
  | ones :: rest =>
      (LpStatusOptimal,
       indicator (argmin (λ s, eval (indicator s) (objective prob)) ones rest))
  end.

(** The sum of the distances of the pairs of a matching. *)
Definition total_distance (distance_matrix : gmap (Z * Z) Q)
    (matches : gmap Z Z) : Q :=
  Qsum (λ pair, default 0 (distance_matrix !! pair)) (map_to_list matches).

(** A one-to-one assignment respecting the risk sets: every treated key is
    paired with a control of its own risk set, and no control serves twice. *)
Definition feasible_assignment (risk_sets : gmap Z (list Z))
    (f : gmap Z Z) : Prop :=
  dom f = dom risk_sets ∧
  (∀ t c, f !! t = Some c → ∃ controls, risk_sets !! t = Some controls ∧ c ∈ controls) ∧
  (∀ t1 t2 c, f !! t1 = Some c → f !! t2 = Some c → t1 = t2).

(** *** The program and its solutions, by the risk sets *)

(** The objective, when every distance is there. *)
Definition objective_of (distance_matrix : gmap (Z * Z) Q)
    (risk_sets : gmap Z (list Z)) : LpAffineExpression :=
  (λ v, (v, default 0 (distance_matrix !! v))) <$> pairs risk_sets.

Definition problem_of (distance_matrix : gmap (Z * Z) Q)
    (risk_sets : gmap Z (list Z)) : LpProblem :=
  {| objective := objective_of distance_matrix risk_sets;
     constraints := exactly_one_control risk_sets ++
                    at_most_one_treated risk_sets |}.

(** A solution is the indicator of the variables it sets to 1. *)
Definition ones_of (prob : LpProblem) (y : LpVariable → Q) : list LpVariable :=
  List.filter (λ v, Qeq_bool (y v) 1) (variables prob).

(** The terms of the row of a control [c]: the treated keys whose risk set
    holds [c]. *)
Definition serving (risk_sets : gmap Z (list Z)) (c : Z) : list (Z * list Z) :=
  List.filter (λ tc : Z * list Z, bool_decide (c ∈ tc.2))
              (map_to_list risk_sets).

(** What the three groups of rows say of an assignment. *)
Definition rows_hold (risk_sets : gmap Z (list Z)) (x : LpVariable → Q)
  : Prop :=
  (∀ t c, (t, c) ∈ pairs risk_sets → binary x (t, c)) ∧
  (∀ t controls, risk_sets !! t = Some controls →
                 Qsum (λ c, x (t, c)) controls == 1) ∧
  (∀ c, c ∈ all_controls risk_sets →
        Qsum (λ tc, x (tc.1, c)) (serving risk_sets c) <= 1).

(** [matches[t]] after the comprehension: the last control of the risk
    set of [t] whose variable is 1. *)
Definition chosen (x : LpVariable → Q) (t : Z) (controls : list Z)
  : option Z :=
  last (List.filter (λ c, Qeq_bool (x (t, c)) 1) controls).

(** The 0/1 values that stand for an assignment. *)
Definition values_of (f : gmap Z Z) : LpVariable → Q :=
  λ v, if decide (f !! v.1 = Some v.2) then 1 else 0.

(** The entry of the matrix for a pair, 0 where there is none. *)
Definition distance (distance_matrix : gmap (Z * Z) Q) (v : LpVariable) : Q :=
  default 0 (distance_matrix !! v).

(** Risk sets of the example cohort, with |i - j| standing in as distance. *)
Definition example_risk_sets : gmap Z (list Z) :=
  {[ 3 := [4; 5; 6; 8; 9]; 7 := [8; 9] ]}%Z.

Definition example_distances : gmap (Z * Z) Q :=
  list_to_map ((λ '(i, j), ((i, j), inject_Z (Z.abs (i - j)))) <$>
               (i ← seqZ 0 10; j ← seqZ 0 10; [(i, j)])).

(** A treated subject (7) with an empty risk set next to a matchable one. *)
Definition unmatchable_risk_sets : gmap Z (list Z) :=
  {[ 3 := [4]; 7 := [] ]}%Z.

(** Two treated subjects whose only eligible control is the same subject. *)
Definition contested_risk_sets : gmap Z (list Z) :=
  {[ 1 := [5]; 2 := [5] ]}%Z.

(** Subject 7 can only be matched with 4, the control nearest to 3. *)
Definition forced_risk_sets : gmap Z (list Z) :=
  {[ 3 := [4; 5]; 7 := [4] ]}%Z.

(** A risk set that lists control 4 twice, as a table with a repeated label
    produces it. *)
Definition repeated_risk_sets : gmap Z (list Z) :=
  {[ 3 := [4; 4; 5] ]}%Z.

(** A solver that gives up: no solution is looked for, the status is
    [NotSolved] and every variable is left at 1. *)
Definition idle_solve : Solver := λ _, (LpStatusNotSolved, λ _, 1).

(** The exhaustive search again, with another choice for the values the
    contract leaves open: when the program has no solution every variable is
    left at 1. *)
Definition keep_ones_solve : Solver := λ prob,
  match (exhaustive_solve prob).1 with
  | LpStatusOptimal => exhaustive_solve prob
  | status => (status, λ _, 1)
  end.

End Matching.

(** ** Cell 5: [sensitivity_analysis] *)

Module Sensitivity.

Import Binary64.
Local Open Scope Q_scope.

(** The bias factor is a float, as the docstring types it: a Python [float]
    or a numpy [float64] scalar, which is a [float] as well.  Both hold
    binary64 values and compute the same sums and quotients; they differ in
    the division by zero. *)
Inductive number :=
  | PyFloat (x : float64)
  | NpFloat64 (x : float64).

Definition value (n : number) : float64 :=
  match n with
  | PyFloat x => x
  | NpFloat64 x => x
  end.

(** [1 + x]: the literal is the int 1, which is converted to the float 1.0;
    the sum is a float of the type of [x]. *)
Definition add_1 (x : number) : number :=
  match x with
  | PyFloat x => PyFloat (fadd (Finite 1) x)
  | NpFloat64 x => NpFloat64 (fadd (Finite 1) x)
  end.

(** [1 / x]: Python raises [ZeroDivisionError] when the float [x] is zero;
    numpy, in its default error state, returns [inf] with a
    [RuntimeWarning], which is no exception. *)
Definition truediv_1 (x : number) : result number :=
  match x with
  | PyFloat x =>
      if is_zero x then Raise ZeroDivisionError
      else Ok (PyFloat (fdiv (Finite 1) x))
  | NpFloat64 x => Ok (NpFloat64 (fdiv (Finite 1) x))
  end.

Definition sensitivity_analysis (matches : gmap Z Z) (bias_factor : number)
  : result (gmap (Z * Z) number) :=
  let sensitivity_scores := ∅ in
  for_each (λ sensitivity_scores '(treated, control),
      (* Example calculation for sensitivity (placeholder) *)
      score ← truediv_1 (add_1 bias_factor);
      Ok (<[(treated, control) := score]> sensitivity_scores))
    (map_to_list matches) sensitivity_scores.

(** The float literals [1.0] and [1.2], and [float("inf")]. *)
Definition float_1_0 : number := PyFloat (Finite 1).
Definition float_1_2 : number := PyFloat (of_Q (12 # 10)).
Definition float_inf : number := PyFloat PInf.

End Sensitivity.

(** * Properties *)

(** ** The error monad *)

Lemma for_each_pure {A S : Type} (body : S → A → result S) (g : S → A → S)
    (l : list A) (s : S) :
  (∀ s x, x ∈ l → body s x = Ok (g s x)) →
  for_each body l s = Ok (foldl g s l).
Proof.
  revert s. induction l as [|x l IH]; intros s Hbody; simpl; [done|].
  rewrite Hbody by left. simpl. apply IH.
  intros s' y Hy. apply Hbody. by right.
Qed.

Lemma for_each_raises {A S : Type} (body : S → A → result S)
    (l : list A) (s : S) (e : exn) :
  for_each body l s = Raise e → ∃ s' x, x ∈ l ∧ body s' x = Raise e.
Proof.
  revert s. induction l as [|x l IH]; intros s; simpl; [done|].
  destruct (body s x) as [s'|e'] eqn:Hb; simpl.
  - intros (s'' & y & Hy & Hr)%IH. exists s'', y. split; [by right|done].
  - intros [= ->]. exists s, x. split; [by left|done].
Qed.

(** ** Rounding to binary64 *)

Section binary64.
Import Binary64.
Local Open Scope Q_scope.

Lemma rint_bounds x : (Qfloor x <= rint x <= Qfloor x + 1)%Z.
Proof.
  unfold rint. destruct (Qcompare _ _); [destruct (Z.even _)|..]; lia.
Qed.

Lemma rint_mono x y : x <= y → (rint x <= rint y)%Z.
Proof.
  intros Hxy. pose proof (Qfloor_resp_le _ _ Hxy) as Hf.
  destruct (decide (Qfloor x = Qfloor y)) as [He|Hne].
  - unfold rint. rewrite <-He.
    destruct (Qcompare_spec (x - inject_Z (Qfloor x)) (1 # 2)) as [Hx|Hx|Hx],
             (Qcompare_spec (y - inject_Z (Qfloor x)) (1 # 2)) as [Hy|Hy|Hy];
      try destruct (Z.even _); try lia; lra.
  - pose proof (rint_bounds x). pose proof (rint_bounds y). lia.
Qed.

Lemma rint_Z n : rint (inject_Z n) = n.
Proof.
  unfold rint. rewrite Qfloor_Z.
  destruct (Qcompare_spec (inject_Z n - inject_Z n) (1 # 2)) as [H|H|H];
    [lra|done|lra].
Qed.

Lemma rint_ge x n : inject_Z n <= x → (n <= rint x)%Z.
Proof. intros H%rint_mono. by rewrite rint_Z in H. Qed.

Lemma rint_le x n : x <= inject_Z n → (rint x <= n)%Z.
Proof. intros H%rint_mono. by rewrite rint_Z in H. Qed.

Lemma rint_comp x y : x == y → rint x = rint y.
Proof.
  intros Hxy. unfold rint. rewrite <-(Qfloor_comp _ _ Hxy).
  assert (x - inject_Z (Qfloor x) == y - inject_Z (Qfloor x)) as H by lra.
  by rewrite (Qcompare_comp _ _ H _ _ (Qeq_refl (1 # 2))).
Qed.

Lemma inject_Z_pow2_pos k : (0 <= k)%Z → 0 < inject_Z (2 ^ k).
Proof.
  intros Hk. change 0 with (inject_Z 0). rewrite <-Zlt_Qlt.
  by apply Z.pow_pos_nonneg.
Qed.

Lemma Qfloor_nonneg y : 0 <= y → (0 <= Qfloor y)%Z.
Proof. intros H%Qfloor_resp_le. exact H. Qed.

(** The exponent of the grid on which [round53 y] lies. *)
Local Abbreviation grid y := (Z.max 0 (Z.log2 (Qfloor y) - 52)).

Lemma round53_unfold y :
  round53 y = (rint (y / inject_Z (2 ^ grid y)) * 2 ^ grid y)%Z.
Proof. done. Qed.

Lemma grid_mono y1 y2 : y1 <= y2 → (grid y1 <= grid y2)%Z.
Proof. intros H%Qfloor_resp_le. apply Z.log2_le_mono in H. lia. Qed.

Lemma round53_upper y : 0 <= y → (round53 y <= 2 ^ (grid y + 53))%Z.
Proof.
  intros Hy. rewrite round53_unfold.
  rewrite Z.pow_add_r, (Z.mul_comm (2 ^ grid y)) by lia.
  apply Z.mul_le_mono_nonneg_r; [by apply Z.pow_nonneg|].
  apply rint_le, Qle_shift_div_r; [apply inject_Z_pow2_pos; lia|].
  rewrite <-inject_Z_mult, <-Z.pow_add_r by lia.
  apply Qle_trans with (inject_Z (Qfloor y + 1)); [apply Qlt_le_weak, Qlt_floor|].
  rewrite <-Zle_Qle.
  pose proof (Qfloor_nonneg y Hy) as Hf.
  assert (Qfloor y + 1 <= 2 ^ (Z.log2 (Qfloor y) + 1))%Z as Hlog.
  { destruct (decide (Qfloor y = 0%Z)) as [->|Hne]; [done|].
    pose proof (Z.log2_spec (Qfloor y)). unfold Z.succ in *. lia. }
  etrans; [exact Hlog|]. apply Z.pow_le_mono_r; lia.
Qed.

Lemma round53_lower y :
  0 <= y → (0 < grid y)%Z → (2 ^ (grid y + 52) <= round53 y)%Z.
Proof.
  intros Hy Hk. rewrite round53_unfold.
  rewrite Z.pow_add_r, (Z.mul_comm (2 ^ grid y)) by lia.
  apply Z.mul_le_mono_nonneg_r; [by apply Z.pow_nonneg|].
  apply rint_ge, Qle_shift_div_l; [apply inject_Z_pow2_pos; lia|].
  rewrite <-inject_Z_mult, <-Z.pow_add_r by lia.
  apply Qle_trans with (inject_Z (Qfloor y)); [|apply Qfloor_le].
  rewrite <-Zle_Qle.
  assert (0 < Qfloor y)%Z as Hf.
  { destruct (Z.le_gt_cases (Qfloor y) 0) as [H|H]; [|done].
    rewrite Z.log2_nonpos in Hk by done. lia. }
  pose proof (Z.log2_spec (Qfloor y) Hf) as [Hlog _].
  replace (52 + grid y)%Z with (Z.log2 (Qfloor y)) by lia. done.
Qed.

Lemma round53_nonneg y : 0 <= y → (0 <= round53 y)%Z.
Proof.
  intros Hy. rewrite round53_unfold.
  apply Z.mul_nonneg_nonneg; [|by apply Z.pow_nonneg].
  apply rint_ge. apply Qle_shift_div_l; [apply inject_Z_pow2_pos; lia|].
  change (inject_Z 0) with 0. by rewrite Qmult_0_l.
Qed.

Lemma round53_mono y1 y2 :
  0 <= y1 → y1 <= y2 → (round53 y1 <= round53 y2)%Z.
Proof.
  intros H1 H12. pose proof (grid_mono _ _ H12) as Hk.
  destruct (decide (grid y1 = grid y2)) as [He|Hne].
  - rewrite !round53_unfold, He.
    apply Z.mul_le_mono_nonneg_r; [by apply Z.pow_nonneg|].
    apply rint_mono. unfold Qdiv. apply Qmult_le_compat_r; [done|].
    apply Qinv_le_0_compat, Qlt_le_weak, inject_Z_pow2_pos. lia.
  - etrans; [by apply round53_upper|].
    etrans; [|apply round53_lower; [lra|lia]].
    apply Z.pow_le_mono_r; lia.
Qed.

Lemma round53_comp x y : x == y → round53 x = round53 y.
Proof.
  intros Hxy. unfold round53. rewrite <-(Qfloor_comp _ _ Hxy).
  f_equal. apply rint_comp. apply Qmult_comp; [done|reflexivity].
Qed.

(** An integer on its own grid is left as it is. *)
Lemma round53_exact (n : Z) :
  (2 ^ grid (inject_Z n) | n)%Z → round53 (inject_Z n) = n.
Proof.
  intros [m Hm]. rewrite round53_unfold.
  set (g := grid (inject_Z n)) in *.
  rewrite (rint_comp _ (inject_Z m)); [by rewrite rint_Z|].
  rewrite Hm at 1. rewrite inject_Z_mult.
  field. apply Qnot_eq_sym, Qlt_not_eq, inject_Z_pow2_pos. lia.
Qed.

Lemma scale_pos : 0 < scale.
Proof. by apply inject_Z_pow2_pos. Qed.

Lemma round_pos_nonneg q : 0 <= q → 0 <= round_pos q.
Proof.
  intros Hq. unfold round_pos. rewrite Qred_correct.
  apply Qle_shift_div_l; [apply scale_pos|]. rewrite Qmult_0_l.
  change 0 with (inject_Z 0). rewrite <-Zle_Qle. apply round53_nonneg.
  apply Qmult_le_0_compat; [done|]. apply Qlt_le_weak, scale_pos.
Qed.

Lemma round_pos_mono q1 q2 : 0 <= q1 → q1 <= q2 → round_pos q1 <= round_pos q2.
Proof.
  intros H1 H12. unfold round_pos. rewrite !Qred_correct.
  unfold Qdiv. apply Qmult_le_compat_r;
    [|apply Qinv_le_0_compat, Qlt_le_weak, scale_pos].
  rewrite <-Zle_Qle. apply round53_mono.
  - apply Qmult_le_0_compat; [done|]. apply Qlt_le_weak, scale_pos.
  - apply Qmult_le_compat_r; [done|]. apply Qlt_le_weak, scale_pos.
Qed.

Lemma round_pos_comp x y : x == y → round_pos x == round_pos y.
Proof.
  intros Hxy. unfold round_pos.
  rewrite (round53_comp (x * scale) (y * scale)); [done|].
  apply Qmult_comp; [done|reflexivity].
Qed.

Lemma round_pos_int (z : Z) :
  (0 <= z <= 2 ^ 53)%Z → round_pos (inject_Z z) == inject_Z z.
Proof.
  intros Hz. unfold round_pos. rewrite Qred_correct.
  assert (round53 (inject_Z z * scale) = (z * 2 ^ 1074)%Z) as ->.
  { unfold scale. rewrite (round53_comp _ (inject_Z (z * 2 ^ 1074)))
      by by rewrite inject_Z_mult.
    apply round53_exact. rewrite Qfloor_Z.
    destruct (decide (z = 0%Z)) as [->|Hne]; [apply Z.divide_0_r|].
    rewrite Z.log2_mul_pow2 by lia.
    assert (Z.log2 z <= 53)%Z as Hlog.
    { change 53%Z with (Z.log2 (2 ^ 53)). apply Z.log2_le_mono. lia. }
    destruct (decide (Z.log2 z = 53%Z)) as [He|Hne'].
    - assert (z = 2 ^ 53)%Z as ->.
      { pose proof (Z.log2_spec z). rewrite He in *. lia. }
      exists (2 ^ 52)%Z. by vm_compute.
    - pose proof (Z.log2_nonneg z).
      rewrite Z.max_r by lia.
      apply Z.divide_mul_r.
      exists (2 ^ (1074 - (1074 + Z.log2 z - 52)))%Z.
      rewrite <-Z.pow_add_r by lia. f_equal. lia. }
  rewrite inject_Z_mult. unfold scale. field.
  apply Qnot_eq_sym, Qlt_not_eq. by apply inject_Z_pow2_pos.
Qed.

(** Rounding to binary64 is monotone. *)
Lemma round_mono q1 q2 : q1 <= q2 → round q1 <= round q2.
Proof.
  intros H12. unfold round.
  destruct (Qcompare_spec q1 0) as [E1|L1|G1],
           (Qcompare_spec q2 0) as [E2|L2|G2]; try lra.
  - apply round_pos_mono; lra.
  - apply round_pos_mono; lra.
  - pose proof (round_pos_nonneg (- q1)). pose proof (round_pos_nonneg q2). lra.
  - pose proof (round_pos_mono (- q2) (- q1)). lra.
  - pose proof (round_pos_nonneg (- q1)). pose proof (round_pos_nonneg q2). lra.
  - apply round_pos_mono; lra.
Qed.

Lemma round_comp x y : x == y → round x == round y.
Proof.
  intros Hxy. unfold round.
  rewrite (Qcompare_comp _ _ Hxy _ _ (Qeq_refl 0)).
  destruct (Qcompare y 0); try by apply round_pos_comp.
  apply Qopp_comp, round_pos_comp. by apply Qopp_comp.
Qed.

(** Every integer of magnitude at most [2^53] is a binary64 number. *)
Lemma round_int (z : Z) :
  (- 2 ^ 53 <= z <= 2 ^ 53)%Z → round (inject_Z z) == inject_Z z.
Proof.
  intros Hz. unfold round. assert (0 < 2 ^ 53)%Z as Hpos by done.
  destruct (Qcompare_spec (inject_Z z) 0) as [H|H|H].
  - apply round_pos_int. unfold Qeq in H. simpl in H. lia.
  - change 0 with (inject_Z 0) in H. rewrite <-Zlt_Qlt in H.
    rewrite (round_pos_comp _ (inject_Z (- z))) by by rewrite inject_Z_opp.
    rewrite round_pos_int by lia. by rewrite inject_Z_opp, Qopp_involutive.
  - change 0 with (inject_Z 0) in H. rewrite <-Zlt_Qlt in H.
    apply round_pos_int. lia.
Qed.

(** Rounding at work: the decimal 0.1, a tie at [2^53 + 1] that goes down to
    the even significand, the next odd integer that goes up, and the two
    ends of the range. *)
Example round_examples :
  round (1 # 10) = 3602879701896397 # 36028797018963968 ∧
  round (inject_Z (2 ^ 53 + 1)) = inject_Z (2 ^ 53) ∧
  round (inject_Z (2 ^ 53 + 3)) = inject_Z (2 ^ 53 + 4) ∧
  of_Q (inject_Z (2 ^ 1024)) = PInf ∧
  of_Q (1 + max_float) = Finite max_float ∧
  of_Q (/ inject_Z (2 ^ 1076)) = Finite 0.
Proof. vm_compute. repeat split. Qed.

End binary64.

(** ** The risk-set builder *)

Section risk_sets.
Import RiskSets.

Lemma cell_eq_spec c k : cell_eq c k = true ↔ has_value k c.
Proof.
  destruct c as [q|]; simpl.
  - rewrite Qeq_bool_iff. split; [by exists q|]. by intros (? & [= <-] & ?).
  - split; [done|]. by intros (? & ? & ?).
Qed.

Lemma cell_ge_spec c t : cell_ge c t = true ↔ observed_at_or_after c t.
Proof.
  destruct c as [a|], t as [b|]; simpl;
    try (split; [done|]; by intros (? & ? & ? & ? & ?)).
  rewrite Qle_bool_iff. split; [by exists a, b|].
  by intros (? & ? & [= <-] & [= <-] & ?).
Qed.

Lemma getitem_ok data col :
  col ∈ columns data → getitem data col = Ok ((λ r, r.2 col) <$> rows data).
Proof. intros H. unfold getitem. by rewrite bool_decide_eq_true_2. Qed.


Lemma NoDup_fst_filter {A} (f : Z * A → bool) (l : list (Z * A)) :
  NoDup l.*1 → NoDup (List.filter f l).*1.
Proof.
  induction l as [|[i a] l IH]; simpl; [done|].
  rewrite NoDup_cons. intros [Hi Hl]. destruct (f (i, a)); simpl; [|by auto].
  apply NoDup_cons. split; [|by auto].
  intros ([j b] & Hj & Hin%list_elem_of_In%filter_In)%list_elem_of_fmap.
  apply Hi, list_elem_of_fmap. exists (j, b). split; [done|].
  apply list_elem_of_In. tauto.
Qed.

Lemma NoDup_fst_agree {A} (l : list (Z * A)) i a b :
  NoDup l.*1 → (i, a) ∈ l → (i, b) ∈ l → a = b.
Proof.
  induction l as [|[j c] l IH]; simpl; [by intros _ ?%elem_of_nil|].
  rewrite NoDup_cons. intros [Hj Hl] Ha Hb.
  apply elem_of_cons in Ha as [Ha|Ha], Hb as [Hb|Hb]; simplify_eq; [done|..].
  - destruct Hj. apply list_elem_of_fmap. by exists (j, b).
  - destruct Hj. apply list_elem_of_fmap. by exists (j, a).
  - by apply IH.
Qed.

(** The loop of [create_risk_sets], with its body as a pure step. *)
Lemma foldl_insert_lookup {A B} (g : A → B) (l : list (Z * A))
    (init : gmap Z B) (k : Z) :
  NoDup l.*1 →
  foldl (λ m '(i, a), <[i := g a]> m) init l !! k =
    match list_find (λ r, r.1 = k) l with
    | Some (_, (_, a)) => Some (g a)
    | None => init !! k
    end.
Proof.
  revert init. induction l as [|[i a] l IH]; intros init; simpl; [done|].
  rewrite NoDup_cons. intros [Hi Hl]. rewrite IH by done.
  case_decide as Hk; simpl in *.
  - subst k. destruct (list_find _ l) as [[n [j b]]|] eqn:Hf; simpl.
    + apply list_find_Some in Hf as (Hn & Hj & _). simpl in Hj. subst j.
      destruct Hi. apply list_elem_of_fmap. exists (i, b).
      split; [done|]. by eapply list_elem_of_lookup_2.
    + by rewrite lookup_insert_eq.
  - destruct (list_find _ l) as [[n [j b]]|]; simpl; [done|].
    by rewrite lookup_insert_ne.
Qed.

(** Conversions and the comparison of times. *)
Lemma common_dtype_int64 data col :
  common_dtype data = int64 → col ∈ columns data → dtypes data col = int64.
Proof.
  unfold common_dtype. destruct (forallb _ _) eqn:Hall; [|done].
  intros _ Hcol%list_elem_of_In. rewrite forallb_forall in Hall.
  specialize (Hall _ Hcol). by destruct (dtypes data col).
Qed.

Lemma ge_compared data time_col c t :
  time_col ∈ columns data →
  ge (dtypes data time_col) c
     (common_dtype data,
      astype (dtypes data time_col) (common_dtype data) t) =
  cell_ge (compared data time_col c) (compared data time_col t).
Proof.
  intros Htm. unfold ge, compared. simpl.
  destruct (common_dtype data) eqn:Hc.
  - by rewrite (common_dtype_int64 _ _ Hc Htm).
  - by destruct (dtypes data time_col).
Qed.


Lemma compared_Num data time_col q :
  ∃ q', compared data time_col (Num q) = Num q'.
Proof.
  unfold compared. destruct (dtypes data time_col), (common_dtype data);
    by eexists.
Qed.

(** The conversion keeps the order of the times. *)
Lemma compared_mono data time_col a b :
  (a <= b)%Q →
  ∃ a' b', compared data time_col (Num a) = Num a' ∧
           compared data time_col (Num b) = Num b' ∧ (a' <= b')%Q.
Proof.
  intros Hab. unfold compared.
  destruct (dtypes data time_col), (common_dtype data); simpl;
    eexists _, _; (split; [done|]); (split; [done|]);
    done || by apply round_mono.
Qed.


(** A frame whose columns are all [int64], or whose time column is
    [float64], compares the times as they are. *)
Lemma exact_times_same_dtype data time_col :
  dtypes data time_col = common_dtype data → exact_times data time_col.
Proof.
  intros Hd r _. unfold compared. rewrite Hd.
  destruct (common_dtype data), (r.2 time_col); simpl; done.
Qed.

(** So does a frame whose times are integers of magnitude at most 2^53. *)
Lemma exact_times_small_int data time_col :
  (∀ r, r ∈ rows data →
        ∃ z, r.2 time_col = Num (inject_Z z) ∧ (- 2 ^ 53 <= z <= 2 ^ 53)%Z) →
  exact_times data time_col.
Proof.
  intros Hz r Hr. destruct (Hz r Hr) as (z & -> & Hb). unfold compared.
  destruct (dtypes data time_col), (common_dtype data); simpl;
    done || by apply round_int.
Qed.

Lemma where_ext data (f g : (string → cell) → bool) :
  (∀ r, f r = g r) → where_ data f = where_ data g.
Proof.
  intros Hfg. unfold where_. f_equal. apply List.filter_ext.
  intros r. apply Hfg.
Qed.

Lemma for_each_fmap {A B S : Type} (body : S → B → result S) (f : A → B)
    (l : list A) (s : S) :
  for_each body (f <$> l) s = for_each (λ s x, body s (f x)) l s.
Proof.
  revert s. induction l as [|x l IH]; intros s; simpl; [done|].
  destruct (body s (f x)); simpl; [apply IH|done].
Qed.

Variables (data : DataFrame) (treatment_col time_col : string).

Local Abbreviation controls_at :=
  (RiskSets.controls_at data treatment_col time_col).
Local Abbreviation treated_rows := (RiskSets.treated_rows data treatment_col).
Local Abbreviation loop_result :=
  (RiskSets.loop_result data treatment_col time_col).
Local Abbreviation compared := (RiskSets.compared data time_col).

Lemma common_dtype_where (mask : (string → cell) → bool) :
  common_dtype (where_ data mask) = common_dtype data.
Proof. done. Qed.

Lemma create_risk_sets_unfold :
  treatment_col ∈ columns data → time_col ∈ columns data →
  create_risk_sets data treatment_col time_col =
    Ok loop_result.
Proof.
  intros Htc Htm. unfold create_risk_sets.
  rewrite (getitem_ok _ _ Htc). simpl.
  unfold iterrows. rewrite for_each_fmap.
  apply (for_each_pure _
    (λ m '(i, r), <[i := controls_at (r time_col)]> m)).
  intros m [i r] _. unfold Series_getitem. simpl.
  rewrite bool_decide_eq_true_2 by done. simpl.
  rewrite ?getitem_ok by done. simpl. rewrite !common_dtype_where.
  unfold RiskSets.controls_at. do 3 f_equal. apply where_ext.
  intros c. by rewrite ge_compared.
Qed.


Lemma controls_at_rows t i :
  i ∈ controls_at t →
  ∃ c, c ∈ rows data ∧ c.1 = i ∧
       has_value 0 (c.2 treatment_col) ∧
       observed_at_or_after (compared (c.2 time_col)) (compared t).
Proof.
  unfold RiskSets.controls_at, index, where_. simpl.
  intros (c & -> & [Hin Hp]%list_elem_of_In%filter_In)%list_elem_of_fmap.
  apply andb_true_iff in Hp as [H0%cell_eq_spec Hge%cell_ge_spec].
  exists c. by rewrite list_elem_of_In.
Qed.


Lemma treated_rows_spec r :
  r ∈ treated_rows ↔ r ∈ rows data ∧ has_value 1 (r.2 treatment_col).
Proof.
  unfold RiskSets.treated_rows, where_. simpl.
  by rewrite list_elem_of_In, filter_In, <-list_elem_of_In, cell_eq_spec.
Qed.

Lemma risk_sets_lookup_treated (t : Z * (string → cell)) :
  NoDup (index data) → t ∈ rows data → has_value 1 (t.2 treatment_col) →
  loop_result !! t.1 = Some (controls_at (t.2 time_col)).
Proof.
  intros Hnd Hin Ht. unfold RiskSets.loop_result.
  assert (NoDup treated_rows.*1) as Hnd' by by apply NoDup_fst_filter.
  rewrite (foldl_insert_lookup (λ r, controls_at (r time_col))) by done.
  destruct (list_find _ _) as [[n [j r]]|] eqn:Hf.
  - apply list_find_Some in Hf as (Hn%list_elem_of_lookup_2 & Hj & _).
    simpl in Hj. subst j. destruct t as [i r']. simpl in *.
    assert ((i, r') ∈ treated_rows) as Hin' by by apply treated_rows_spec.
    by rewrite (NoDup_fst_agree _ _ _ _ Hnd' Hn Hin').
  - apply list_find_None in Hf. rewrite Forall_forall in Hf.
    destruct (Hf t); [|done]. by apply treated_rows_spec.
Qed.

Lemma risk_sets_lookup_inv k controls :
  NoDup (index data) →
  loop_result !! k = Some controls →
  ∃ t, t ∈ rows data ∧ t.1 = k ∧ has_value 1 (t.2 treatment_col) ∧
       controls = controls_at (t.2 time_col).
Proof.
  intros Hnd. unfold RiskSets.loop_result.
  assert (NoDup treated_rows.*1) as Hnd' by by apply NoDup_fst_filter.
  rewrite (foldl_insert_lookup (λ r, controls_at (r time_col))) by done.
  destruct (list_find _ _) as [[n [j r]]|] eqn:Hf; [|by rewrite lookup_empty].
  apply list_find_Some in Hf as (Hn%list_elem_of_lookup_2 & Hj & _).
  intros [= <-]. apply treated_rows_spec in Hn as [? ?]. by exists (j, r).
Qed.



End risk_sets.

Section risk_sets_claims.
Import RiskSets.



(** C3 fails as stated: in a frame with an [int64] time column and a
    [float64] column, the treated row reaches the comparison as float64.
    Subject 0 is treated at [2^53 + 1] and subject 1 was last seen at [2^53],
    before that time; both times round to [2^53], and subject 1 is in the
    risk set of subject 0. *)
Lemma create_risk_sets_rounds_times :
  create_risk_sets rounded_times_data "treatment" "time"
    = Ok {[ 0%Z := [1%Z] ]} ∧
  ∃ t c, rows rounded_times_data = [t; c] ∧ t.1 = 0%Z ∧ c.1 = 1%Z ∧
         has_value 1 (t.2 "treatment") ∧ has_value 0 (c.2 "treatment") ∧
         ¬ observed_at_or_after (c.2 "time") (t.2 "time").
Proof.
  split; [vm_compute; reflexivity|].
  eexists _, _. split; [reflexivity|]. split; [done|]. split; [done|].
  split; [by exists 1%Q|]. split; [by exists 0%Q|].
  intros (a & b & [= <-] & [= <-] & Hle). by vm_compute in Hle.
Qed.

(** The times of the example cohort are compared as they are, and so are
    those of every frame without a [float64] column, however large: without
    the column [dose] the table above gives subject 0 an empty risk set. *)
Example create_risk_sets_exact_times :
  exact_times example_data "time" ∧
  exact_times integer_times_data "time" ∧
  create_risk_sets integer_times_data "treatment" "time" = Ok {[ 0%Z := [] ]}.
Proof.
  split; [|split].
  - by apply exact_times_same_dtype.
  - by apply exact_times_same_dtype.
  - vm_compute. reflexivity.
Qed.

(** The equal-time case of C3 on a concrete table: a control observed at
    exactly the treatment time is in the risk set, an earlier one is not. *)
Example create_risk_sets_tie :
  create_risk_sets
    {| columns := ["treatment"; "time"];
       dtypes := dtype_of [("time", float64)];
       rows := [ row 0 [("treatment", Num 1); ("time", Num 6)];
                 row 1 [("treatment", Num 0); ("time", Num 6)];
                 row 2 [("treatment", Num 0); ("time", Num (59 # 10))] ] |}
    "treatment" "time" = Ok {[ 0%Z := [1%Z] ]}.
Proof. vm_compute. reflexivity. Qed.

(** C10: a row whose treatment value is neither 1 nor 0 is skipped: its label
    is not a key of the returned mapping and is in no risk set, and the call
    returns normally. *)
Theorem create_risk_sets_skips_unrecognized (data : DataFrame)
    (treatment_col time_col : string) :
  treatment_col ∈ columns data → time_col ∈ columns data →
  NoDup (index data) →
  ∃ risk_sets,
    create_risk_sets data treatment_col time_col = Ok risk_sets ∧
    ∀ r, r ∈ rows data →
      ¬ has_value 1 (r.2 treatment_col) → ¬ has_value 0 (r.2 treatment_col) →
      risk_sets !! r.1 = None ∧
      ∀ t controls, risk_sets !! t = Some controls → r.1 ∉ controls.
Proof.
  intros Htc Htm Hnd. eexists. split; [by apply create_risk_sets_unfold|].
  intros [i r] Hin H1 H0. simpl in *. split.
  - destruct (loop_result _ _ _ !! i) as [controls|] eqn:Hl; [|done].
    apply risk_sets_lookup_inv in Hl as ([j r'] & Hin' & Hj & Ht & _); [|done].
    simpl in *. subst j.
    by rewrite (NoDup_fst_agree _ _ _ _ Hnd Hin Hin') in H1.
  - intros t controls (t' & _ & _ & _ & ->)%risk_sets_lookup_inv; [|done].
    intros ([j r'] & Hin' & Hj & Hc & _)%controls_at_rows.
    simpl in *. subst j.
    by rewrite (NoDup_fst_agree _ _ _ _ Hnd Hin Hin') in H0.
Qed.

Lemma create_risk_sets_skips_unrecognized_witness :
  ∃ risk_sets,
    create_risk_sets malformed_data "treatment" "time" = Ok risk_sets ∧
    ∀ r, r ∈ rows malformed_data →
      ¬ has_value 1 (r.2 "treatment") → ¬ has_value 0 (r.2 "treatment") →
      risk_sets !! r.1 = None ∧
      ∀ t controls, risk_sets !! t = Some controls → r.1 ∉ controls.
Proof.
  apply (create_risk_sets_skips_unrecognized malformed_data "treatment" "time").
  - apply (bool_decide_unpack _); vm_compute; exact I.
  - apply (bool_decide_unpack _); vm_compute; exact I.
  - apply (bool_decide_unpack _); vm_compute; exact I.
Defined.




(** A treated row without a time: on the table [late_treatment_data] the
    subject 2 stays a key, with an empty risk set. *)
Example create_risk_sets_missing_treatment_time :
  create_risk_sets late_treatment_data "treatment" "time"
    = Ok {[ 0%Z := []; 2%Z := [] ]}.
Proof. vm_compute. reflexivity. Qed.

End risk_sets_claims.

(** ** The sensitivity analyzer *)

Section sensitivity.
Import Binary64 Sensitivity.
Local Open Scope Q_scope.

#[local] Opaque huge max_float round.

Lemma foldl_insert_const_lookup {K A V} `{Countable K}
    (key : A → K) (v : V) (l : list A) (init : gmap K V) (k : K) :
  foldl (λ m a, <[key a := v]> m) init l !! k =
    if bool_decide (k ∈ key <$> l) then Some v else init !! k.
Proof.
  revert init. induction l as [|a l IH]; intros init; simpl; [done|].
  rewrite IH. destruct (decide (k = key a)) as [->|Hne].
  - rewrite lookup_insert_eq, (bool_decide_eq_true_2 (_ ∈ _ :: _)) by left.
    by case_bool_decide.
  - rewrite lookup_insert_ne by done.
    apply option_eq. intros w. repeat case_bool_decide; try done.
    + destruct H1. by right.
    + apply elem_of_cons in H1 as [?|?]; done.
Qed.

(** When the quotient [1 / (1 + bias_factor)] is computed without an
    exception, the call returns with that one score for every matched pair. *)
Lemma sensitivity_analysis_lookup (matches : gmap Z Z)
    (bias_factor score : number) :
  truediv_1 (add_1 bias_factor) = Ok score →
  ∃ scores,
    sensitivity_analysis matches bias_factor = Ok scores ∧
    ∀ t c, scores !! (t, c) =
             if bool_decide (matches !! t = Some c)
             then Some score else None.
Proof.
  intros Hdiv. unfold sensitivity_analysis.
  eexists. split.
  - apply (for_each_pure _
      (λ m (tc : Z * Z), <[(tc.1, tc.2) := score]> m)).
    intros m [t c] _. by rewrite Hdiv.
  - intros t c.
    rewrite (foldl_insert_const_lookup (λ tc : Z * Z, (tc.1, tc.2))).
    rewrite lookup_empty. apply option_eq. intros w.
    repeat case_bool_decide; try done.
    + destruct H0. apply list_elem_of_fmap in H as ([t' c'] & [= -> ->] & Hin).
      by apply elem_of_map_to_list in Hin.
    + destruct H. apply list_elem_of_fmap. exists (t, c).
      split; [done|]. by apply elem_of_map_to_list.
Qed.

(** Binary64 numbers the proofs meet, rounded. *)
Lemma round_constants :
  round 0 == 0 ∧ round (1 # 2) == 1 # 2 ∧ round 2 == 2 ∧
  round (1 + max_float) == max_float ∧ 0 < round (1 / max_float) ∧
  max_float < huge ∧ 1 < huge.
Proof. vm_compute. repeat split. Qed.

Lemma of_Q_mono q1 q2 : q1 <= q2 → fle (of_Q q1) (of_Q q2).
Proof.
  intros H%round_mono. unfold of_Q.
  destruct round_constants as (_ & _ & _ & _ & _ & _ & Hh).
  destruct (Qle_bool huge (round q1)) eqn:H1, (Qle_bool huge (round q2)) eqn:H2,
           (Qle_bool (round q1) (- huge)) eqn:H3,
           (Qle_bool (round q2) (- huge)) eqn:H4; simpl; try done;
    repeat match goal with
    | H : Qle_bool _ _ = true |- _ => apply Qle_bool_iff in H
    | H : Qle_bool _ _ = false |- _ => apply not_true_iff_false in H;
                                       rewrite Qle_bool_iff in H
    end; lra.
Qed.

Lemma of_Q_finite q :
  - huge < round q → round q < huge → of_Q q = Finite (round q).
Proof.
  intros Hl Hu. unfold of_Q.
  destruct (Qle_bool huge (round q)) eqn:H1.
  { apply Qle_bool_iff in H1. lra. }
  destruct (Qle_bool (round q) (- huge)) eqn:H2; [|done].
  apply Qle_bool_iff in H2. lra.
Qed.

Lemma huge_gt_1 : 1 < huge.
Proof. apply round_constants. Qed.

Lemma Qinv_antitone a b : 0 < a → a <= b → 1 / b <= 1 / a.
Proof.
  intros Ha Hab. apply Qle_shift_div_r; [lra|].
  assert (1 / a * a == 1) as Hinv by (field; lra).
  assert (0 < 1 / a) as Hpos by (apply Qlt_shift_div_l; lra).
  rewrite <-Hinv at 1. apply Qmult_le_l; [done|lra].
Qed.

(** The sum [1 + x] for a bias factor of at least 1: at least 2, possibly
    infinite. *)
Lemma fadd_1_ge x :
  fle (Finite 1) x →
  fadd (Finite 1) x = PInf ∨ ∃ r, fadd (Finite 1) x = Finite r ∧ 2 <= r.
Proof.
  destruct x as [a| | |]; simpl; try done; [|by left].
  intros Ha. destruct round_constants as (_ & _ & H2 & _).
  assert (2 <= round (1 + a)) as Hr.
  { rewrite <-H2. apply round_mono. lra. }
  unfold of_Q. destruct (Qle_bool huge _); [by left|].
  destruct (Qle_bool _ (- huge)) eqn:Hn.
  - apply Qle_bool_iff in Hn. pose proof huge_gt_1. lra.
  - right. exists (round (1 + a)). split; [reflexivity|exact Hr].
Qed.

Lemma of_Q_not_nan q : of_Q q ≠ NaN.
Proof. unfold of_Q. by repeat destruct (Qle_bool _ _). Qed.

Lemma fadd_1_mono x y :
  fle x y → fle (fadd (Finite 1) x) (fadd (Finite 1) y).
Proof.
  destruct x as [a| | |], y as [b| | |]; simpl; try done.
  - intros Hab. apply of_Q_mono. lra.
  - intros _. pose proof (of_Q_not_nan (1 + a)). by destruct (of_Q _).
  - intros _. pose proof (of_Q_not_nan (1 + b)). by destruct (of_Q _).
Qed.


(** The quotient [1 / s] for a sum [s] of at least 2. *)
Lemma fdiv_1_range s :
  fle (Finite 2) s →
  is_zero s = false ∧
  ∃ v, fdiv (Finite 1) s = Finite v ∧ 0 <= v ∧ v <= 1 # 2.
Proof.
  destruct s as [r| | |]; simpl; try done; [|by split; [|exists 0]].
  intros Hr. destruct round_constants as (H0 & Hhalf & _).
  assert (Qeq_bool r 0 = false) as Hz.
  { apply not_true_iff_false. rewrite Qeq_bool_iff. lra. }
  rewrite Hz. split; [done|].
  assert (0 < 1 / r) as Hpos by (apply Qlt_shift_div_l; lra).
  assert (1 / r <= 1 # 2) as Hle by (apply Qle_shift_div_r; lra).
  assert (0 <= round (1 / r)) as Hlo
    by (rewrite <-H0; apply round_mono; lra).
  assert (round (1 / r) <= 1 # 2) as Hhi
    by (rewrite <-Hhalf; apply round_mono; exact Hle).
  exists (round (1 / r)). split; [|split; assumption].
  apply of_Q_finite; pose proof huge_gt_1; lra.
Qed.

Lemma fdiv_1_antitone s1 s2 :
  fle (Finite 2) s1 → fle s1 s2 →
  fle (fdiv (Finite 1) s2) (fdiv (Finite 1) s1).
Proof.
  intros H1 H12.
  destruct (fdiv_1_range s1 H1) as (_ & v1 & Hv1 & Hpos & _).
  destruct s1 as [r1| | |], s2 as [r2| | |]; simpl in *; try done.
  - assert (Qeq_bool r1 0 = false) as Hz1.
    { apply not_true_iff_false. rewrite Qeq_bool_iff. lra. }
    assert (Qeq_bool r2 0 = false) as Hz2.
    { apply not_true_iff_false. rewrite Qeq_bool_iff. lra. }
    rewrite Hz1, Hz2. apply of_Q_mono, Qinv_antitone; lra.
  - rewrite Hv1. exact Hpos.
Qed.


(** The score of a bias factor of at least 1, for both kinds of float. *)
Lemma score_from_one (bias_factor : number) :
  fle (Finite 1) (value bias_factor) →
  ∃ score,
    truediv_1 (add_1 bias_factor) = Ok score ∧
    value score = fdiv (Finite 1) (fadd (Finite 1) (value bias_factor)).
Proof.
  intros H1.
  assert (fle (Finite 2) (fadd (Finite 1) (value bias_factor))) as H2.
  { destruct (fadd_1_ge _ H1) as [->|(r & -> & ?)]; done. }
  destruct (fdiv_1_range _ H2) as [Hz _].
  destruct bias_factor as [x|x]; simpl in *.
  - rewrite Hz. by eexists.
  - by eexists.
Qed.

End sensitivity.

Section sensitivity_claims.
Import Binary64 Sensitivity.
Local Open Scope Q_scope.

(** C5: for a fixed matching and bias strengths 1 <= g1 <= g2, both calls
    return, every matched pair has a score in both results, and its score at
    g2 is less than or equal to its score at g1. *)
Theorem sensitivity_analysis_monotone (matches : gmap Z Z) (g1 g2 : number) :
  fle (Finite 1) (value g1) → fle (value g1) (value g2) →
  ∃ scores1 scores2,
    sensitivity_analysis matches g1 = Ok scores1 ∧
    sensitivity_analysis matches g2 = Ok scores2 ∧
    ∀ t c,
      (matches !! t = Some c →
       ∃ v1 v2, scores1 !! (t, c) = Some v1 ∧ scores2 !! (t, c) = Some v2 ∧
                fle (value v2) (value v1)) ∧
      (matches !! t ≠ Some c →
       scores1 !! (t, c) = None ∧ scores2 !! (t, c) = None).
Proof.
  intros H1 H12.
  assert (fle (Finite 1) (value g2)) as H2.
  { destruct (value g1) as [a| | |], (value g2) as [b| | |];
      simpl in *; try done. lra. }
  destruct (score_from_one g1 H1) as (v1 & Hv1 & Hval1).
  destruct (score_from_one g2 H2) as (v2 & Hv2 & Hval2).
  destruct (sensitivity_analysis_lookup matches g1 v1 Hv1) as (s1 & Hs1 & Hl1).
  destruct (sensitivity_analysis_lookup matches g2 v2 Hv2) as (s2 & Hs2 & Hl2).
  exists s1, s2. split; [done|]. split; [done|].
  intros t c. rewrite Hl1, Hl2. split; intros Hm.
  - rewrite !bool_decide_eq_true_2 by done.
    eexists _, _. split; [done|]. split; [done|].
    rewrite Hval1, Hval2. apply fdiv_1_antitone; [|by apply fadd_1_mono].
    destruct (fadd_1_ge _ H1) as [->|(r & -> & ?)]; done.
  - by rewrite !bool_decide_eq_false_2 by done.
Qed.

Lemma sensitivity_analysis_monotone_witness :
  ∃ scores1 scores2,
    sensitivity_analysis {[ 3%Z := 4%Z; 7%Z := 8%Z ]} float_1_0 = Ok scores1 ∧
    sensitivity_analysis {[ 3%Z := 4%Z; 7%Z := 8%Z ]} float_1_2 = Ok scores2 ∧
    ∀ t c,
      (({[ 3%Z := 4%Z; 7%Z := 8%Z ]} : gmap Z Z) !! t = Some c →
       ∃ v1 v2, scores1 !! (t, c) = Some v1 ∧ scores2 !! (t, c) = Some v2 ∧
                fle (value v2) (value v1)) ∧
      (({[ 3%Z := 4%Z; 7%Z := 8%Z ]} : gmap Z Z) !! t ≠ Some c →
       scores1 !! (t, c) = None ∧ scores2 !! (t, c) = None).
Proof.
  apply (sensitivity_analysis_monotone {[ 3%Z := 4%Z; 7%Z := 8%Z ]}
           float_1_0 float_1_2).
  - vm_compute. discriminate.
  - vm_compute. discriminate.
Defined.



(** C9 fails as stated: the bias strength [float("inf")] is at least 1, and
    every pair then scores [0.0], which is not in (0, 1]. *)
Lemma sensitivity_analysis_zero_score :
  fle (Finite 1) (value float_inf) ∧
  sensitivity_analysis {[ 3%Z := 4%Z; 7%Z := 8%Z ]} float_inf =
    Ok {[ (3, 4)%Z := PyFloat (Finite 0); (7, 8)%Z := PyFloat (Finite 0) ]} ∧
  ¬ flt (Finite 0) (Finite 0).
Proof.
  split; [done|]. split; [vm_compute; reflexivity|].
  simpl. lra.
Qed.

(** The notebook's own call, [bias_factor=1.2]: every pair scores the float
    nearest to [1 / 2.2], which prints as 0.45454545454545453. *)
Example sensitivity_analysis_notebook :
  sensitivity_analysis {[ 3%Z := 4%Z; 7%Z := 8%Z ]} float_1_2 =
    Ok {[ (3, 4)%Z := PyFloat (Finite (8188362958855447 # 18014398509481984));
          (7, 8)%Z := PyFloat (Finite (8188362958855447 # 18014398509481984)) ]}.
Proof. vm_compute. reflexivity. Qed.

(** Outside the domain of bias strengths: at [bias_factor = -1.0] the
    division raises as soon as there is a pair to score, for a Python float. *)
Example sensitivity_analysis_zero_division :
  sensitivity_analysis {[ 3%Z := 4%Z ]} (PyFloat (Finite (-1)))
    = Raise ZeroDivisionError ∧
  sensitivity_analysis ∅ (PyFloat (Finite (-1))) = Ok ∅.
Proof. split; vm_compute; reflexivity. Qed.

End sensitivity_claims.

(** ** Finite sums of rationals *)

Section Qsum.
Local Open Scope Q_scope.
Context {A : Type}.
Implicit Types (g h : A → Q) (l : list A).

Lemma Qsum_ext g h l :
  (∀ a, a ∈ l → g a == h a) → Qsum g l == Qsum h l.
Proof.
  induction l as [|a l IH]; intros Hgh; simpl; [reflexivity|].
  rewrite (Hgh a) by left. rewrite IH; [reflexivity|].
  intros b Hb. apply Hgh. by right.
Qed.

Lemma Qsum_le g h l :
  (∀ a, a ∈ l → g a <= h a) → Qsum g l <= Qsum h l.
Proof.
  induction l as [|a l IH]; intros Hgh; simpl; [apply Qle_refl|].
  apply Qplus_le_compat; [apply Hgh; left|].
  apply IH. intros b Hb. apply Hgh. by right.
Qed.

Lemma Qsum_zero l : Qsum (λ _ : A, 0) l == 0.
Proof. induction l as [|a l IH]; simpl; [reflexivity|]. rewrite IH. lra. Qed.

Lemma Qsum_all_zero g l : (∀ a, a ∈ l → g a == 0) → Qsum g l == 0.
Proof.
  intros Hg. rewrite <-(Qsum_zero l). by apply Qsum_ext.
Qed.

Lemma Qsum_nonneg g l : (∀ a, a ∈ l → 0 <= g a) → 0 <= Qsum g l.
Proof.
  intros Hg. rewrite <-(Qsum_zero l). by apply Qsum_le.
Qed.

Lemma Qsum_app g l1 l2 : Qsum g (l1 ++ l2) == Qsum g l1 + Qsum g l2.
Proof.
  induction l1 as [|a l1 IH]; simpl; [lra|]. rewrite IH. lra.
Qed.

Lemma Qsum_perm g l1 l2 : l1 ≡ₚ l2 → Qsum g l1 == Qsum g l2.
Proof.
  induction 1 as [|a l1 l2 _ IH|a b l|l1 l2 l3 _ IH1 _ IH2]; simpl.
  - reflexivity.
  - rewrite IH. reflexivity.
  - lra.
  - by rewrite IH1.
Qed.

(** One element of a sum of non-negative terms is below the sum. *)
Lemma Qsum_ge_elem g l a :
  (∀ b, b ∈ l → 0 <= g b) → a ∈ l → g a <= Qsum g l.
Proof.
  intros Hg Ha. apply list_elem_of_split in Ha as (l1 & l2 & ->).
  rewrite Qsum_app. simpl.
  assert (0 <= Qsum g l1).
  { apply Qsum_nonneg. intros b Hb. apply Hg, elem_of_app. by left. }
  assert (0 <= Qsum g l2).
  { apply Qsum_nonneg. intros b Hb. apply Hg, elem_of_app. right. by right. }
  lra.
Qed.

(** So are two elements at different positions. *)
Lemma Qsum_ge_two g l a b :
  (∀ c, c ∈ l → 0 <= g c) → NoDup l → a ∈ l → b ∈ l → a ≠ b →
  g a + g b <= Qsum g l.
Proof.
  intros Hg Hnd Ha Hb Hab. apply list_elem_of_split in Ha as (l1 & l2 & ->).
  rewrite Qsum_app. simpl.
  assert (b ∈ l1 ++ l2) as Hb'.
  { rewrite elem_of_app, elem_of_cons in Hb. rewrite elem_of_app.
    destruct Hb as [?|[?|?]]; [by left|congruence|by right]. }
  assert (g b <= Qsum g (l1 ++ l2)) as Hle.
  { apply Qsum_ge_elem; [|done]. intros c Hc. apply Hg.
    rewrite elem_of_app in Hc. rewrite elem_of_app, elem_of_cons. tauto. }
  rewrite Qsum_app in Hle. lra.
Qed.

(** The sum of the indicator of one key over a list without two elements
    of that key. *)
Lemma Qsum_indicator_le {K} `{EqDecision K} (key : A → K) (k : K) l :
  NoDup (key <$> l) →
  Qsum (λ a, if decide (key a = k) then 1 else 0) l <= 1.
Proof.
  induction l as [|a l IH]; simpl; [lra|].
  rewrite NoDup_cons. intros [Ha Hl]. case_decide as Hk.
  - rewrite Qsum_all_zero; [lra|]. intros b Hb.
    case_decide; [|reflexivity]. destruct Ha. apply list_elem_of_fmap.
    exists b. split; [congruence|done].
  - specialize (IH Hl). lra.
Qed.

Lemma Qsum_indicator_eq {K} `{EqDecision K} (key : A → K) (k : K) l :
  NoDup (key <$> l) → k ∈ key <$> l →
  Qsum (λ a, if decide (key a = k) then 1 else 0) l == 1.
Proof.
  induction l as [|a l IH]; simpl; [by intros _ ?%elem_of_nil|].
  rewrite NoDup_cons. intros [Ha Hl] Hk. case_decide as Hak.
  - rewrite Qsum_all_zero; [lra|]. intros b Hb.
    case_decide; [|reflexivity]. destruct Ha. apply list_elem_of_fmap.
    exists b. split; [congruence|done].
  - apply elem_of_cons in Hk as [?|Hk]; [congruence|].
    rewrite (IH Hl Hk). lra.
Qed.

(** A sum of 0/1 terms that equals 1 has a term that is 1. *)
Lemma Qsum_exists_one g l :
  Qsum g l == 1 → (∀ a, a ∈ l → g a == 0 ∨ g a == 1) →
  ∃ a, a ∈ l ∧ g a == 1.
Proof.
  induction l as [|a l IH]; simpl; intros Hsum Hbin.
  - by vm_compute in Hsum.
  - destruct (Hbin a) as [H0|H1]; [by left| |exists a; split; [by left|done]].
    destruct IH as (b & Hb & Hgb).
    + rewrite H0 in Hsum. by rewrite Qplus_0_l in Hsum.
    + intros b Hb. apply Hbin. by right.
    + exists b. split; [by right|done].
Qed.

(** At most one element of the list has the property: the indicator sums
    to at most 1. *)
Lemma Qsum_at_most_one (P : A → Prop) `{∀ a, Decision (P a)} l :
  NoDup l → (∀ a b, a ∈ l → b ∈ l → P a → P b → a = b) →
  Qsum (λ a, if decide (P a) then 1 else 0) l <= 1.
Proof.
  induction l as [|a l IH]; simpl; [intros; lra|].
  rewrite NoDup_cons. intros [Ha Hl] Huniq. case_decide as HP.
  - rewrite Qsum_all_zero; [lra|]. intros b Hb.
    case_decide as HPb; [|reflexivity]. destruct Ha.
    rewrite (Huniq a b); [done|by left|by right|done|done].
  - assert (Qsum (λ a, if decide (P a) then 1 else 0) l <= 1); [|lra].
    apply IH; [done|]. intros b c Hb Hc. apply Huniq; by right.
Qed.

(** Exactly one element is picked: the weighted indicator sums to its
    weight. *)
Lemma Qsum_pick `{EqDecision A} g l a :
  NoDup l → a ∈ l →
  Qsum (λ b, g b * (if decide (b = a) then 1 else 0)) l == g a.
Proof.
  induction l as [|b l IH]; simpl; [by intros _ ?%elem_of_nil|].
  rewrite NoDup_cons. intros [Hb Hl] Ha. case_decide as Hba.
  - subst b. rewrite Qsum_all_zero; [lra|]. intros c Hc.
    case_decide; [by subst c|lra].
  - apply elem_of_cons in Ha as [?|Ha]; [congruence|]. rewrite IH by done. lra.
Qed.

End Qsum.

Lemma Qsum_fmap {A B : Type} (f : A → B) (g : B → Q) (l : list A) :
  Qsum g (f <$> l) = Qsum (g ∘ f) l.
Proof. induction l as [|a l IH]; csimpl; [done|]. by rewrite IH. Qed.

Lemma Qsum_bind {A B : Type} (f : A → list B) (g : B → Q) (l : list A) :
  (Qsum g (l ≫= f) == Qsum (λ a, Qsum g (f a)) l)%Q.
Proof.
  induction l as [|a l IH]; csimpl; [reflexivity|].
  rewrite Qsum_app, IH. reflexivity.
Qed.

(** ** The reference solver meets the contract of an exact solver *)

Section solver.
Import Matching.
Local Open Scope Q_scope.
Implicit Types (x y : LpVariable → Q) (prob : LpProblem).

Lemma eval_ext x y (e : LpAffineExpression) :
  (∀ v, v ∈ e.*1 → x v == y v) → eval x e == eval y e.
Proof.
  intros Hxy. apply Qsum_ext. intros [v a] Hin. simpl.
  rewrite (Hxy v); [reflexivity|]. apply list_elem_of_fmap. by exists (v, a).
Qed.

Lemma satisfiesb_spec x c : satisfiesb x c = true ↔ satisfies x c.
Proof.
  unfold satisfiesb, satisfies. destruct (sense c).
  - apply Qle_bool_iff.
  - apply Qeq_bool_iff.
Qed.

Lemma satisfies_ext x y c :
  (∀ v, v ∈ (lhs c).*1 → x v == y v) → satisfies x c → satisfies y c.
Proof.
  intros Hxy%eval_ext. unfold satisfies. destruct (sense c); by rewrite Hxy.
Qed.

Lemma objective_variables prob v :
  v ∈ (objective prob).*1 → v ∈ variables prob.
Proof.
  intros Hv. unfold variables. rewrite elem_of_remove_dups, elem_of_app.
  by left.
Qed.

Lemma constraint_variables prob c v :
  c ∈ constraints prob → v ∈ (lhs c).*1 → v ∈ variables prob.
Proof.
  intros Hc Hv. unfold variables. rewrite elem_of_remove_dups, elem_of_app.
  right. apply list_elem_of_bind. by exists c.
Qed.

Lemma filter_sublists {A} (f : A → bool) (l : list A) :
  List.filter f l ∈ sublists l.
Proof.
  induction l as [|a l IH]; simpl; [by left|].
  rewrite elem_of_app. destruct (f a); [right|by left].
  apply list_elem_of_fmap. by eexists.
Qed.

Lemma argmin_elem {A} (f : A → Q) (best : A) (l : list A) :
  argmin f best l ∈ best :: l.
Proof.
  revert best. induction l as [|a l IH]; intros best; simpl; [by left|].
  specialize (IH (if Qle_bool (f best) (f a) then best else a)).
  apply elem_of_cons in IH as [->|IH]; [|by do 2 right].
  destruct (Qle_bool _ _); [by left|right; by left].
Qed.

Lemma argmin_le {A} (f : A → Q) (best : A) (l : list A) :
  ∀ a, a ∈ best :: l → f (argmin f best l) <= f a.
Proof.
  revert best. induction l as [|b l IH]; intros best a; simpl.
  - intros ->%list_elem_of_singleton. apply Qle_refl.
  - intros Ha.
    destruct (Qle_bool (f best) (f b)) eqn:Hle.
    + apply Qle_bool_iff in Hle.
      apply elem_of_cons in Ha as [->|[->|Ha]%elem_of_cons].
      * apply IH. by left.
      * eapply Qle_trans; [|exact Hle]. apply IH. by left.
      * apply IH. by right.
    + assert (f b <= f best).
      { destruct (Qlt_le_dec (f b) (f best)) as [?|Hc%Qle_bool_iff];
          [by apply Qlt_le_weak|congruence]. }
      apply elem_of_cons in Ha as [->|[->|Ha]%elem_of_cons].
      * eapply Qle_trans; [|done]. apply IH. by left.
      * apply IH. by left.
      * apply IH. by right.
Qed.

Lemma indicator_binary ones v : binary (indicator ones) v.
Proof.
  unfold binary, indicator. case_bool_decide; [by right|by left].
Qed.

Lemma indicator_ones_of prob y v :
  v ∈ variables prob → binary y v → indicator (ones_of prob y) v == y v.
Proof.
  intros Hv Hb. unfold indicator, ones_of. case_bool_decide as Hin.
  - apply list_elem_of_In, filter_In in Hin as [_ H1%Qeq_bool_iff].
    by symmetry.
  - destruct Hb as [H0|H1]; [by symmetry|].
    destruct Hin. apply list_elem_of_In, filter_In.
    split; [by apply list_elem_of_In|by apply Qeq_bool_iff].
Qed.

Lemma feasible_indicator prob y :
  feasible prob y →
  forallb (satisfiesb (indicator (ones_of prob y))) (constraints prob) = true ∧
  eval (indicator (ones_of prob y)) (objective prob) == eval y (objective prob).
Proof.
  intros [Hbin Hsat]. split.
  - apply forallb_forall. intros c Hc%list_elem_of_In.
    apply satisfiesb_spec. rewrite Forall_forall in Hsat.
    apply (satisfies_ext y); [|by apply Hsat].
    intros v Hv. symmetry. apply indicator_ones_of; [|apply Hbin];
      by eapply constraint_variables.
  - apply eval_ext. intros v Hv%objective_variables.
    apply indicator_ones_of; [done|by apply Hbin].
Qed.

Theorem exhaustive_solve_exact : exact_solver exhaustive_solve.
Proof.
  intros prob. unfold exhaustive_solve.
  destruct (List.filter _ (sublists (variables prob)))
    as [|ones rest] eqn:Hcand; simpl.
  - split; [done|]. intros [y Hy].
    destruct (feasible_indicator _ _ Hy) as [Hsat _].
    assert (ones_of prob y ∈ @nil (list LpVariable)) as Hin; [|by inversion Hin].
    rewrite <-Hcand. apply list_elem_of_In, filter_In.
    split; [|done]. apply list_elem_of_In, filter_sublists.
  - split; [|done]. intros _.
    set (f := λ s, eval (indicator s) (objective prob)).
    split; [split|].
    + intros v _. apply indicator_binary.
    + pose proof (argmin_elem f ones rest) as Hin.
      rewrite <-Hcand in Hin.
      apply list_elem_of_In, filter_In in Hin as [_ Hsat].
      rewrite forallb_forall in Hsat. apply Forall_forall.
      intros c Hc. apply satisfiesb_spec, Hsat. by apply list_elem_of_In.
    + intros y Hy. destruct (feasible_indicator _ _ Hy) as [Hsat <-].
      apply (argmin_le f). rewrite <-Hcand.
      apply list_elem_of_In, filter_In.
      split; [|done]. apply list_elem_of_In, filter_sublists.
Qed.

(** The contract says nothing of the values under another status than
    [Optimal]: the solver that leaves them at 1 meets it as well. *)
Theorem keep_ones_solve_exact : exact_solver keep_ones_solve.
Proof.
  intros prob. destruct (exhaustive_solve_exact prob) as [Hopt Hex].
  unfold keep_ones_solve.
  destruct (exhaustive_solve prob) as [status x] eqn:Hsolve. simpl in *.
  destruct status; simpl; try done;
    (split; [done|]); intros Hy; by specialize (Hex Hy).
Qed.

End solver.

(** ** The program built from the risk sets *)

Lemma map_each_pure {A B : Type} (f : A → result B) (g : A → B) (l : list A) :
  (∀ a, a ∈ l → f a = Ok (g a)) → map_each f l = Ok (g <$> l).
Proof.
  induction l as [|a l IH]; intros Hf; simpl; [done|].
  rewrite Hf by left. simpl. rewrite IH; [done|].
  intros b Hb. apply Hf. by right.
Qed.

Lemma map_each_inv {A B : Type} (f : A → result B) (l : list A) (ys : list B) :
  map_each f l = Ok ys → Forall2 (λ a y, f a = Ok y) l ys.
Proof.
  revert ys. induction l as [|a l IH]; intros ys; simpl.
  - intros [= <-]. constructor.
  - destruct (f a) as [y|] eqn:Hy; simpl; [|done].
    destruct (map_each f l) as [ys'|]; simpl; [|done].
    intros [= <-]. constructor; [done|]. by apply IH.
Qed.

Lemma map_each_raises {A B : Type} (f : A → result B) (l : list A) (e : exn) :
  map_each f l = Raise e → ∃ a, a ∈ l ∧ f a = Raise e.
Proof.
  induction l as [|a l IH]; simpl; [done|].
  destruct (f a) as [y|e'] eqn:Hy; simpl.
  - destruct (map_each f l) as [ys'|e']; simpl; [done|].
    intros [= ->]. destruct IH as (b & ? & ?); [done|].
    exists b. split; [by right|done].
  - intros [= ->]. exists a. split; [by left|done].
Qed.

Section program.
Import Matching.
Local Open Scope Q_scope.
Variables (distance_matrix : gmap (Z * Z) Q) (risk_sets : gmap Z (list Z)).
Implicit Types (x y : LpVariable → Q) (t c : Z) (controls : list Z).

Local Abbreviation problem_of :=
  (Matching.problem_of distance_matrix risk_sets).

Lemma elem_of_pairs t c :
  (t, c) ∈ pairs risk_sets ↔
  ∃ controls, risk_sets !! t = Some controls ∧ c ∈ controls.
Proof.
  unfold pairs. rewrite list_elem_of_bind. split.
  - intros ([t' controls] & Hin & Hm%elem_of_map_to_list).
    apply list_elem_of_bind in Hin as (c' & [= -> ->]%list_elem_of_singleton & Hc).
    by exists controls.
  - intros (controls & Hm & Hc). exists (t, controls).
    split; [|by apply elem_of_map_to_list].
    apply list_elem_of_bind. exists c. split; [by left|done].
Qed.

Lemma build_problem_ok :
  (∀ t c, (t, c) ∈ pairs risk_sets → is_Some (distance_matrix !! (t, c))) →
  build_problem distance_matrix risk_sets = Ok problem_of.
Proof.
  intros Hd. unfold build_problem.
  rewrite (map_each_pure _ (λ v, (v, default 0 (distance_matrix !! v)))); [done|].
  intros [t c] [d Hin]%Hd. unfold loc. by rewrite Hin.
Qed.

Lemma build_problem_inv prob :
  build_problem distance_matrix risk_sets = Ok prob →
  (∀ t c, (t, c) ∈ pairs risk_sets → is_Some (distance_matrix !! (t, c))) ∧
  prob = problem_of.
Proof.
  intros Hb.
  assert (∀ t c, (t, c) ∈ pairs risk_sets →
                 is_Some (distance_matrix !! (t, c))) as Hd.
  { unfold build_problem in Hb.
    destruct (map_each _ _) as [obj|] eqn:Hobj; simpl in Hb; [|done].
    apply map_each_inv in Hobj.
    intros t c Hin. rewrite Forall2_lookup in Hobj.
    apply list_elem_of_lookup in Hin as [i Hi]. specialize (Hobj i).
    rewrite Hi in Hobj. inversion Hobj as [? y Hy|]. unfold loc in Hy.
    by destruct (distance_matrix !! (t, c)). }
  split; [done|]. rewrite (build_problem_ok Hd) in Hb. congruence.
Qed.

Lemma build_problem_raises e :
  build_problem distance_matrix risk_sets = Raise e → e = KeyError.
Proof.
  unfold build_problem.
  destruct (map_each _ _) as [obj|e'] eqn:Hobj; simpl; [done|].
  intros [= ->]. apply map_each_raises in Hobj as ([t c] & _ & Hr).
  unfold loc in Hr. destruct (distance_matrix !! (t, c)); simpl in Hr; congruence.
Qed.

End program.

(** ** Solutions of the program and the matching read off them *)

Section solutions.
Import Matching.
Local Open Scope Q_scope.
Variables (distance_matrix : gmap (Z * Z) Q) (risk_sets : gmap Z (list Z)).
Implicit Types (x y : LpVariable → Q) (t c : Z) (controls : list Z).

Local Abbreviation prob := (problem_of distance_matrix risk_sets).
Local Abbreviation serving := (Matching.serving risk_sets).
Local Abbreviation rows_hold := (Matching.rows_hold risk_sets).

Lemma eval_lpSum_vars x (vs : list LpVariable) :
  eval x (lpSum_vars vs) == Qsum x vs.
Proof.
  unfold eval, lpSum_vars. rewrite Qsum_fmap.
  apply Qsum_ext. intros v _. simpl. lra.
Qed.

Lemma elem_of_serving c t controls :
  (t, controls) ∈ serving c ↔ risk_sets !! t = Some controls ∧ c ∈ controls.
Proof.
  unfold Matching.serving.
  rewrite list_elem_of_In, filter_In, <-list_elem_of_In, elem_of_map_to_list.
  simpl. by rewrite bool_decide_eq_true.
Qed.

Lemma NoDup_fst_serving c : NoDup (serving c).*1.
Proof. apply NoDup_fst_filter, NoDup_fst_map_to_list. Qed.

Lemma elem_of_all_controls c :
  c ∈ all_controls risk_sets ↔
  ∃ t controls, risk_sets !! t = Some controls ∧ c ∈ controls.
Proof.
  unfold all_controls. rewrite elem_of_list_to_set, list_elem_of_bind. split.
  - intros ([t controls] & Hc & Hm%elem_of_map_to_list). by exists t, controls.
  - intros (t & controls & Hm & Hc). exists (t, controls).
    split; [done|]. by apply elem_of_map_to_list.
Qed.

Lemma objective_of_fst :
  (objective_of distance_matrix risk_sets).*1 = pairs risk_sets.
Proof.
  unfold objective_of. induction (pairs risk_sets) as [|v l IH]; csimpl;
    congruence.
Qed.

Lemma variables_problem_of v :
  v ∈ variables prob ↔ v ∈ pairs risk_sets.
Proof.
  unfold variables. rewrite elem_of_remove_dups, elem_of_app. simpl.
  rewrite objective_of_fst.
  split; [|by left]. intros [?|Hin]; [done|].
  apply list_elem_of_bind in Hin as (k & Hv & Hk).
  apply elem_of_app in Hk as [Hk|Hk]; apply list_elem_of_fmap in Hk.
  - destruct Hk as ([t controls] & -> & Hm%elem_of_map_to_list). simpl in Hv.
    unfold lpSum_vars in Hv. rewrite <-!list_fmap_compose in Hv.
    apply list_elem_of_fmap in Hv as (c & -> & Hc). simpl.
    apply elem_of_pairs. by exists controls.
  - destruct Hk as (c & -> & _). simpl in Hv.
    unfold lpSum_vars in Hv. rewrite <-!list_fmap_compose in Hv.
    apply list_elem_of_fmap in Hv as ([t controls] & -> & Hs). simpl.
    apply elem_of_serving in Hs as [Hm Hc].
    apply elem_of_pairs. by exists controls.
Qed.

Lemma feasible_rows_hold x : feasible prob x ↔ rows_hold x.
Proof.
  unfold feasible, Matching.rows_hold. simpl.
  rewrite Forall_app, !Forall_forall. split.
  - intros (Hbin & Hone & Hmost). split; [|split].
    + intros t c Hin. by apply Hbin, variables_problem_of.
    + intros t controls Hm.
      specialize (Hone {| lhs := lpSum_vars ((λ c, (t, c)) <$> controls);
                          sense := LpConstraintEQ; rhs := 1 |}).
      unfold satisfies in Hone. simpl in Hone.
      rewrite eval_lpSum_vars, Qsum_fmap in Hone. apply Hone.
      apply list_elem_of_fmap. exists (t, controls).
      split; [done|]. by apply elem_of_map_to_list.
    + intros c Hc.
      specialize (Hmost {| lhs := lpSum_vars
                                    ((λ tc : Z * list Z, (tc.1, c)) <$> serving c);
                           sense := LpConstraintLE; rhs := 1 |}).
      unfold satisfies in Hmost. simpl in Hmost.
      rewrite eval_lpSum_vars, Qsum_fmap in Hmost. apply Hmost.
      apply list_elem_of_fmap. exists c. split; [done|].
      by apply elem_of_elements.
  - intros (Hbin & Hone & Hmost). split; [|split].
    + intros [t c] Hv%variables_problem_of. by apply Hbin.
    + intros k ([t controls] & -> & Hm%elem_of_map_to_list)%list_elem_of_fmap.
      unfold satisfies. simpl. rewrite eval_lpSum_vars, Qsum_fmap.
      by apply Hone.
    + intros k (c & -> & Hc%elem_of_elements)%list_elem_of_fmap.
      unfold satisfies. simpl. rewrite eval_lpSum_vars, Qsum_fmap.
      by apply Hmost.
Qed.

Lemma chosen_Some x t controls c :
  chosen x t controls = Some c → c ∈ controls ∧ x (t, c) == 1.
Proof.
  intros Hin%last_Some_elem_of%list_elem_of_In%filter_In.
  by rewrite list_elem_of_In, <-Qeq_bool_iff.
Qed.

Lemma chosen_is_Some x t controls c :
  c ∈ controls → x (t, c) == 1 → is_Some (chosen x t controls).
Proof.
  intros Hc Hx. apply last_is_Some. intros Hnil.
  assert (c ∈ List.filter (λ c, Qeq_bool (x (t, c)) 1) controls) as Hin.
  { apply list_elem_of_In, filter_In.
    by rewrite <-list_elem_of_In, Qeq_bool_iff. }
  rewrite Hnil in Hin. by apply elem_of_nil in Hin.
Qed.

Lemma inner_loop x t controls (matches : gmap Z Z) :
  foldl (λ matches c,
           if Qeq_bool (x (t, c)) 1 then <[t := c]> matches else matches)
        matches controls =
  match chosen x t controls with
  | Some c => <[t := c]> matches
  | None => matches
  end.
Proof.
  revert matches. unfold chosen.
  induction controls as [|c controls IH]; intros matches; simpl; [done|].
  rewrite IH. destruct (Qeq_bool (x (t, c)) 1); [|done].
  rewrite last_cons. destruct (last _); [|done]. apply insert_insert_eq.
Qed.

Lemma outer_loop x (l : list (Z * list Z)) (init : gmap Z Z) t :
  NoDup l.*1 →
  foldl (λ matches '(t, controls),
           foldl (λ matches c,
                    if Qeq_bool (x (t, c)) 1 then <[t := c]> matches
                    else matches)
                 matches controls)
        init l !! t =
  match list_find (λ r, r.1 = t) l with
  | Some (_, (_, controls)) =>
      match chosen x t controls with Some c => Some c | None => init !! t end
  | None => init !! t
  end.
Proof.
  revert init. induction l as [|[t0 cs0] l IH]; intros init; simpl; [done|].
  rewrite NoDup_cons. intros [Ht0 Hl]. rewrite IH, inner_loop by done.
  case_decide as Ht; simpl in *.
  - subst t0. destruct (list_find _ l) as [[n [t' cs]]|] eqn:Hf; simpl.
    + apply list_find_Some in Hf as (Hn & Ht' & _). simpl in Ht'. subst t'.
      destruct Ht0. apply list_elem_of_fmap. exists (t, cs).
      split; [done|]. by eapply list_elem_of_lookup_2.
    + destruct (chosen x t cs0); [by rewrite lookup_insert_eq|done].
  - assert ((match chosen x t0 cs0 with
             | Some c => <[t0 := c]> init
             | None => init
             end) !! t = init !! t) as ->.
    { destruct (chosen x t0 cs0); [by rewrite lookup_insert_ne|done]. }
    by destruct (list_find _ l) as [[n [t' cs]]|].
Qed.

Lemma extract_matches_lookup x t :
  extract_matches risk_sets x !! t =
    controls ← risk_sets !! t; chosen x t controls.
Proof.
  unfold extract_matches.
  rewrite outer_loop by apply NoDup_fst_map_to_list.
  rewrite lookup_empty.
  destruct (list_find _ _) as [[n [t' cs]]|] eqn:Hf.
  - apply list_find_Some in Hf as (Hn%list_elem_of_lookup_2 & Ht' & _).
    simpl in Ht'. subst t'. apply elem_of_map_to_list in Hn.
    rewrite Hn. simpl. by destruct (chosen x t cs).
  - destruct (risk_sets !! t) as [cs|] eqn:Hm; [|done].
    apply list_find_None in Hf. rewrite Forall_forall in Hf.
    destruct (Hf (t, cs)); [|done]. by apply elem_of_map_to_list.
Qed.

(** Whatever the values are, a matched control is in the risk set of its
    treated subject. *)
Lemma extract_matches_risk_set x t c :
  extract_matches risk_sets x !! t = Some c →
  ∃ controls, risk_sets !! t = Some controls ∧ c ∈ controls ∧ x (t, c) == 1.
Proof.
  rewrite extract_matches_lookup.
  destruct (risk_sets !! t) as [controls|]; simpl; [|done].
  intros [? ?]%chosen_Some. by exists controls.
Qed.

End solutions.

(** ** From a solution to a matching, and back *)

Section matching.
Import Matching.
Local Open Scope Q_scope.
Variables (distance_matrix : gmap (Z * Z) Q) (risk_sets : gmap Z (list Z)).
Implicit Types (x y : LpVariable → Q) (t c : Z) (controls : list Z).
Implicit Types (f : gmap Z Z).

Local Abbreviation distance := (Matching.distance distance_matrix).

Lemma binary_nonneg x v : binary x v → 0 <= x v.
Proof. intros [->| ->]; lra. Qed.

(** Every key of the risk sets is matched by a solution. *)
Lemma solution_matches_every_key x t controls :
  rows_hold risk_sets x → risk_sets !! t = Some controls →
  ∃ c, extract_matches risk_sets x !! t = Some c.
Proof.
  intros (Hbin & Hone & _) Hm. rewrite extract_matches_lookup, Hm. simpl.
  destruct (Qsum_exists_one (λ c, x (t, c)) controls) as (c & Hc & Hx).
  - by apply Hone.
  - intros c Hc. apply Hbin, elem_of_pairs. by exists controls.
  - by apply (chosen_is_Some _ _ _ c).
Qed.

(** No control serves two treated subjects in the matching of a solution. *)
Lemma solution_one_to_one x t1 t2 c :
  rows_hold risk_sets x →
  extract_matches risk_sets x !! t1 = Some c →
  extract_matches risk_sets x !! t2 = Some c → t1 = t2.
Proof.
  intros (Hbin & _ & Hmost).
  intros (cs1 & Hm1 & Hc1 & Hx1)%extract_matches_risk_set.
  intros (cs2 & Hm2 & Hc2 & Hx2)%extract_matches_risk_set.
  destruct (decide (t1 = t2)) as [|Hne]; [done|exfalso].
  assert (x (t1, c) + x (t2, c) <= Qsum (λ tc, x (tc.1, c)) (serving risk_sets c))
    as Hle.
  { apply (Qsum_ge_two (λ tc : Z * list Z, x (tc.1, c)) _ (t1, cs1) (t2, cs2)).
    - intros [t cs] [Hm Hc]%elem_of_serving. simpl.
      apply binary_nonneg, Hbin, elem_of_pairs. by exists cs.
    - eapply NoDup_fmap_1, NoDup_fst_serving.
    - by apply elem_of_serving.
    - by apply elem_of_serving.
    - congruence. }
  specialize (Hmost c). rewrite elem_of_all_controls in Hmost.
  rewrite Hx1, Hx2 in Hle.
  assert (Qsum (λ tc, x (tc.1, c)) (serving risk_sets c) <= 1) by eauto.
  lra.
Qed.

Lemma solution_feasible_assignment x :
  rows_hold risk_sets x →
  feasible_assignment risk_sets (extract_matches risk_sets x).
Proof.
  intros Hx. split; [|split].
  - apply set_eq. intros t. rewrite !elem_of_dom. split.
    + intros [c (cs & Hm & _)%extract_matches_risk_set]. by exists cs.
    + intros [cs Hm]. by eapply solution_matches_every_key.
  - intros t c (cs & Hm & Hc & _)%extract_matches_risk_set. by exists cs.
  - intros t1 t2 c. by apply solution_one_to_one.
Qed.

Lemma assignment_rows_hold f :
  (∀ t controls, risk_sets !! t = Some controls → NoDup controls) →
  feasible_assignment risk_sets f → rows_hold risk_sets (values_of f).
Proof.
  intros Hnd (Hdom & Hin & Hinj). split; [|split].
  - intros t c _. unfold binary, values_of. case_decide; [by right|by left].
  - intros t controls Hm.
    assert (is_Some (f !! t)) as [c0 Hf].
    { apply elem_of_dom. rewrite Hdom. by apply elem_of_dom. }
    destruct (Hin _ _ Hf) as (cs & Hm' & Hc0).
    assert (cs = controls) as -> by congruence.
    rewrite <-(Qsum_indicator_eq (@Datatypes.id Z) c0 controls).
    + apply Qsum_ext. intros c _. unfold values_of. simpl.
      repeat case_decide; try reflexivity; congruence.
    + rewrite list_fmap_id. by eapply Hnd.
    + by rewrite list_fmap_id.
  - intros c _. unfold values_of. simpl.
    apply (Qsum_at_most_one (λ tc : Z * list Z, f !! tc.1 = Some c)).
    + eapply NoDup_fmap_1, NoDup_fst_serving.
    + intros [t1 cs1] [t2 cs2] [Hm1 _]%elem_of_serving [Hm2 _]%elem_of_serving.
      simpl. intros Hf1 Hf2. assert (t1 = t2) as -> by eauto. congruence.
Qed.

(** The objective at the values of an assignment is its total distance. *)
Lemma Qsum_pairs (g : LpVariable → Q) :
  Qsum g (pairs risk_sets) ==
  Qsum (λ tc : Z * list Z, Qsum (λ c, g (tc.1, c)) tc.2) (map_to_list risk_sets).
Proof.
  unfold pairs. rewrite Qsum_bind. apply Qsum_ext. intros [t cs] _. simpl.
  rewrite Qsum_bind. apply Qsum_ext. intros c _. simpl. lra.
Qed.

Lemma total_distance_by_keys f (m : gmap Z (list Z)) :
  dom f = dom m →
  total_distance distance_matrix f ==
  Qsum (λ tc : Z * list Z,
          match f !! tc.1 with Some c => distance (tc.1, c) | None => 0 end)
       (map_to_list m).
Proof.
  unfold total_distance. fold (Matching.distance distance_matrix). revert f.
  induction m as [|t cs m Hm IH] using map_ind; intros f Hdom.
  - rewrite dom_empty_L in Hdom. apply dom_empty_inv_L in Hdom. subst f.
    rewrite !map_to_list_empty. reflexivity.
  - assert (is_Some (f !! t)) as [c Hf].
    { apply elem_of_dom. rewrite Hdom, dom_insert_L.
      apply elem_of_union_l. by apply elem_of_singleton. }
    rewrite (Qsum_perm _ _ _ (map_to_list_insert m t cs Hm)).
    rewrite <-(Qsum_perm _ _ _ (map_to_list_delete f t c Hf)). simpl.
    rewrite Hf. rewrite (IH (delete t f)).
    + apply Qplus_comp; [reflexivity|]. apply Qsum_ext.
      intros [t' cs'] Hin%elem_of_map_to_list. simpl.
      rewrite lookup_delete_ne; [reflexivity|]. congruence.
    + rewrite dom_delete_L, Hdom, dom_insert_L.
      apply not_elem_of_dom in Hm. apply set_eq. intros k.
      rewrite elem_of_difference, elem_of_union, !elem_of_singleton.
      split; [intros [[->|?] ?]; done|]. intros Hk. split; [by right|].
      by intros ->.
Qed.

Lemma objective_values_of f :
  (∀ t controls, risk_sets !! t = Some controls → NoDup controls) →
  feasible_assignment risk_sets f →
  eval (values_of f) (objective_of distance_matrix risk_sets) ==
  total_distance distance_matrix f.
Proof.
  intros Hnd (Hdom & Hin & Hinj).
  rewrite (total_distance_by_keys f risk_sets Hdom).
  unfold eval, objective_of. rewrite Qsum_fmap, Qsum_pairs.
  apply Qsum_ext. intros [t controls] Hm%elem_of_map_to_list. simpl.
  assert (is_Some (f !! t)) as [c0 Hf].
  { apply elem_of_dom. rewrite Hdom. by apply elem_of_dom. }
  destruct (Hin _ _ Hf) as (cs & Hm' & Hc0).
  assert (cs = controls) as -> by congruence.
  rewrite Hf. rewrite <-(Qsum_pick (λ c, distance (t, c)) controls c0);
    [|by eapply Hnd|done].
  apply Qsum_ext. intros c _. unfold values_of, Matching.distance. simpl.
  repeat case_decide; try reflexivity; congruence.
Qed.

(** A solution takes the values of its own matching on every variable. *)
Lemma solution_values x t c :
  (∀ t controls, risk_sets !! t = Some controls → NoDup controls) →
  rows_hold risk_sets x → (t, c) ∈ pairs risk_sets →
  x (t, c) == values_of (extract_matches risk_sets x) (t, c).
Proof.
  intros Hnd Hx [controls [Hm Hc]]%elem_of_pairs.
  destruct (solution_matches_every_key x t controls Hx Hm) as [c0 Hc0].
  unfold values_of. simpl. rewrite Hc0.
  apply extract_matches_risk_set in Hc0 as (cs & Hm' & Hin0 & Hx0).
  assert (cs = controls) as -> by congruence.
  destruct Hx as (Hbin & Hone & _).
  case_decide as Heq; [by simplify_eq|].
  destruct (Hbin t c) as [H0|H1]; [apply elem_of_pairs; by exists controls|done|].
  exfalso.
  assert (x (t, c) + x (t, c0) <= Qsum (λ c, x (t, c)) controls) as Hle.
  { apply (Qsum_ge_two (λ c, x (t, c))); [|by eapply Hnd|done|done|congruence].
    intros c' Hc'. apply binary_nonneg, Hbin, elem_of_pairs. by exists controls. }
  rewrite (Hone _ _ Hm), H1, Hx0 in Hle. lra.
Qed.

End matching.

(** ** The assignment solver *)

Section matching_claims.
Import Matching.
Local Open Scope Q_scope.

Lemma optimal_balanced_matching_unfold (solve : Solver)
    (distance_matrix : gmap (Z * Z) Q) (risk_sets : gmap Z (list Z))
    (penalty_factor : Q) (prob : LpProblem) :
  build_problem distance_matrix risk_sets = Ok prob →
  optimal_balanced_matching solve distance_matrix risk_sets penalty_factor =
    Ok (extract_matches risk_sets (solve prob).2).
Proof.
  intros Hb. unfold optimal_balanced_matching. rewrite Hb. simpl.
  by destruct (solve prob).
Qed.

Lemma empty_row_infeasible (prob : LpProblem) (x : LpVariable → Q) :
  {| lhs := []; sense := LpConstraintEQ; rhs := 1 |} ∈ constraints prob →
  ¬ feasible prob x.
Proof.
  intros Hin [_ Hsat]. rewrite Forall_forall in Hsat.
  specialize (Hsat _ Hin). by vm_compute in Hsat.
Qed.

Lemma empty_risk_set_row (risk_sets : gmap Z (list Z)) (t : Z) :
  risk_sets !! t = Some [] →
  {| lhs := []; sense := LpConstraintEQ; rhs := 1 |}
    ∈ exactly_one_control risk_sets.
Proof.
  intros Hm. apply list_elem_of_fmap. exists (t, []).
  split; [done|]. by apply elem_of_map_to_list.
Qed.

(** C1: with an exact solver behind [prob.solve()], every needed distance in
    the matrix and duplicate-free risk sets, whenever some one-to-one
    assignment respecting the risk sets exists, the returned matching is such
    an assignment and its total distance is less than or equal to that of
    every other one. *)
Theorem optimal_balanced_matching_optimal (solve : Solver)
    (distance_matrix : gmap (Z * Z) Q) (risk_sets : gmap Z (list Z))
    (penalty_factor : Q) :
  exact_solver solve →
  (∀ t controls c, risk_sets !! t = Some controls → c ∈ controls →
                   is_Some (distance_matrix !! (t, c))) →
  (∀ t controls, risk_sets !! t = Some controls → NoDup controls) →
  (∃ f, feasible_assignment risk_sets f) →
  ∃ matches,
    optimal_balanced_matching solve distance_matrix risk_sets penalty_factor
      = Ok matches ∧
    feasible_assignment risk_sets matches ∧
    ∀ f, feasible_assignment risk_sets f →
         total_distance distance_matrix matches <= total_distance distance_matrix f.
Proof.
  intros Hsolve Hd Hnd [f0 Hf0].
  assert (build_problem distance_matrix risk_sets =
          Ok (problem_of distance_matrix risk_sets)) as Hb.
  { apply build_problem_ok. intros t c (cs & ? & ?)%elem_of_pairs. eauto. }
  rewrite (optimal_balanced_matching_unfold _ _ _ _ _ Hb).
  destruct (Hsolve (problem_of distance_matrix risk_sets)) as [Hopt Hex].
  destruct Hopt as [Hx Hmin].
  { apply Hex. exists (values_of f0).
    by apply feasible_rows_hold, assignment_rows_hold. }
  set (x := (solve (problem_of distance_matrix risk_sets)).2) in *.
  apply feasible_rows_hold in Hx.
  eexists. split; [done|]. split; [by apply solution_feasible_assignment|].
  intros f Hf.
  rewrite <-(objective_values_of distance_matrix risk_sets f) by done.
  rewrite <-(objective_values_of distance_matrix risk_sets
               (extract_matches risk_sets x))
    by (try done; by apply solution_feasible_assignment).
  eapply Qle_trans; [|apply Hmin; by apply feasible_rows_hold, assignment_rows_hold].
  apply Qle_lteq. right. symmetry. apply eval_ext.
  intros [t c] Hv. rewrite objective_of_fst in Hv. by apply solution_values.
Qed.


(** C2, as the code has it: a treated subject with an empty risk set keeps
    its exactly-one row, which then reads 0 = 1, so the program has no
    solution and an exact solver does not report [Optimal].  The call raises
    nothing on that account, and the subject is not a key of the result. *)
Theorem empty_risk_set_row_is_kept (solve : Solver)
    (distance_matrix : gmap (Z * Z) Q) (risk_sets : gmap Z (list Z))
    (penalty_factor : Q) (t : Z) :
  risk_sets !! t = Some [] →
  (∀ prob, build_problem distance_matrix risk_sets = Ok prob →
     {| lhs := []; sense := LpConstraintEQ; rhs := 1 |} ∈ constraints prob ∧
     (∀ x, ¬ feasible prob x) ∧
     (exact_solver solve → (solve prob).1 ≠ LpStatusOptimal) ∧
     ∃ matches,
       optimal_balanced_matching solve distance_matrix risk_sets penalty_factor
         = Ok matches ∧
       matches !! t = None) ∧
  (∀ e, optimal_balanced_matching solve distance_matrix risk_sets penalty_factor
          = Raise e → e = KeyError).
Proof.
  intros Hm. split.
  - intros prob Hb.
    assert ({| lhs := []; sense := LpConstraintEQ; rhs := 1 |} ∈ constraints prob)
      as Hrow.
    { apply build_problem_inv in Hb as [_ ->]. simpl.
      apply elem_of_app. left. by eapply empty_risk_set_row. }
    split; [done|]. split; [intros x; by apply empty_row_infeasible|].
    split.
    + intros Hsolve Hst. destruct (Hsolve prob) as [Hopt _].
      destruct (Hopt Hst) as [Hx _]. by eapply empty_row_infeasible.
    + rewrite (optimal_balanced_matching_unfold _ _ _ _ _ Hb).
      eexists. split; [done|]. by rewrite extract_matches_lookup, Hm.
  - intros e. unfold optimal_balanced_matching.
    destruct (build_problem _ _) as [prob|e'] eqn:Hb; simpl.
    + by destruct (solve prob).
    + intros [= ->]. by eapply build_problem_raises.
Qed.

(** C7, as the code has it: the status of the solver is never looked at.
    No [SolverFailure] is raised, and whenever the program could be built the
    call returns the matching read off the variable values, whatever the
    status is. *)
Theorem optimal_balanced_matching_ignores_status (solve : Solver)
    (distance_matrix : gmap (Z * Z) Q) (risk_sets : gmap Z (list Z))
    (penalty_factor : Q) :
  (∀ status,
     optimal_balanced_matching solve distance_matrix risk_sets penalty_factor
       ≠ Raise (SolverFailure status)) ∧
  (∀ prob, build_problem distance_matrix risk_sets = Ok prob →
     optimal_balanced_matching solve distance_matrix risk_sets penalty_factor
       = Ok (extract_matches risk_sets (solve prob).2)).
Proof.
  split; [|intros prob; apply optimal_balanced_matching_unfold].
  intros status. unfold optimal_balanced_matching.
  destruct (build_problem _ _) as [prob|e] eqn:Hb; simpl.
  - by destruct (solve prob).
  - apply build_problem_raises in Hb. by subst e.
Qed.

End matching_claims.

(** ** The theorems of the assignment solver at concrete inputs *)

Section matching_examples.
Import Matching.
Local Open Scope Q_scope.

(** Case analysis on a lookup in a map written with [{[ _ := _; ... ]}]. *)
Ltac lookup_cases H :=
  repeat (apply lookup_insert_Some in H as [[? ?]|[? H]]);
  try (apply lookup_singleton_Some in H as [? ?]);
  simplify_eq.

Lemma example_distances_defined t controls c :
  example_risk_sets !! t = Some controls → c ∈ controls →
  is_Some (example_distances !! (t, c)).
Proof.
  intros Hm. revert c. apply Forall_forall. revert t controls Hm.
  change (map_Forall
            (λ t controls,
               Forall (λ c, is_Some (example_distances !! (t, c))) controls)
            example_risk_sets).
  apply (bool_decide_unpack _). vm_compute. exact I.
Defined.

Lemma example_risk_sets_NoDup t controls :
  example_risk_sets !! t = Some controls → NoDup controls.
Proof.
  revert t controls.
  change (map_Forall (λ (_ : Z) controls, NoDup controls) example_risk_sets).
  apply (bool_decide_unpack _). vm_compute. exact I.
Defined.

Lemma example_feasible_assignment :
  feasible_assignment example_risk_sets {[ 3%Z := 4%Z; 7%Z := 8%Z ]}.
Proof.
  split; [|split].
  - apply (bool_decide_unpack _). vm_compute. exact I.
  - intros t c H. lookup_cases H; eexists; (split; [reflexivity|]);
      apply (bool_decide_unpack _); vm_compute; exact I.
  - intros t1 t2 c H1 H2. lookup_cases H1; lookup_cases H2; done.
Defined.

End matching_examples.

Lemma optimal_balanced_matching_optimal_witness :
  ∃ matches,
    Matching.optimal_balanced_matching Matching.exhaustive_solve
      Matching.example_distances Matching.example_risk_sets 100000
      = Ok matches ∧
    Matching.feasible_assignment Matching.example_risk_sets matches ∧
    ∀ f, Matching.feasible_assignment Matching.example_risk_sets f →
         (Matching.total_distance Matching.example_distances matches <=
          Matching.total_distance Matching.example_distances f)%Q.
Proof.
  apply (optimal_balanced_matching_optimal Matching.exhaustive_solve
           Matching.example_distances Matching.example_risk_sets 100000).
  - exact exhaustive_solve_exact.
  - exact example_distances_defined.
  - exact example_risk_sets_NoDup.
  - exists {[ 3%Z := 4%Z; 7%Z := 8%Z ]}. exact example_feasible_assignment.
Defined.


(** The notebook's run on these inputs: 3 is matched with 4 and 7 with 8. *)
Example optimal_balanced_matching_notebook :
  Matching.optimal_balanced_matching Matching.exhaustive_solve
    Matching.example_distances Matching.example_risk_sets 100000
  = Ok {[ 3%Z := 4%Z; 7%Z := 8%Z ]}.
Proof. vm_compute. reflexivity. Qed.

Lemma empty_risk_set_row_is_kept_witness :
  (∀ prob,
     Matching.build_problem Matching.example_distances
       Matching.unmatchable_risk_sets = Ok prob →
     {| Matching.lhs := []; Matching.sense := Matching.LpConstraintEQ;
        Matching.rhs := 1 |} ∈ Matching.constraints prob ∧
     (∀ x, ¬ Matching.feasible prob x) ∧
     (Matching.exact_solver Matching.exhaustive_solve →
      (Matching.exhaustive_solve prob).1 ≠ LpStatusOptimal) ∧
     ∃ matches,
       Matching.optimal_balanced_matching Matching.exhaustive_solve
         Matching.example_distances Matching.unmatchable_risk_sets 100000
         = Ok matches ∧
       matches !! 7%Z = None) ∧
  (∀ e, Matching.optimal_balanced_matching Matching.exhaustive_solve
          Matching.example_distances Matching.unmatchable_risk_sets 100000
          = Raise e → e = KeyError).
Proof.
  apply (empty_risk_set_row_is_kept Matching.exhaustive_solve
           Matching.example_distances Matching.unmatchable_risk_sets 100000 7).
  vm_compute. reflexivity.
Defined.

(** C2 fails as stated: with treated subject 7 unmatchable, its exactly-one
    row is in the program, the program has no solution, the reference solver
    reports [Infeasible], and subject 3, who could be matched with 4, is not
    in the result. *)
Lemma empty_risk_set_program_infeasible :
  ∃ prob,
    Matching.build_problem Matching.example_distances
      Matching.unmatchable_risk_sets = Ok prob ∧
    {| Matching.lhs := []; Matching.sense := Matching.LpConstraintEQ;
       Matching.rhs := 1 |} ∈ Matching.constraints prob ∧
    (∀ x, ¬ Matching.feasible prob x) ∧
    (Matching.exhaustive_solve prob).1 = LpStatusInfeasible ∧
    Matching.optimal_balanced_matching Matching.exhaustive_solve
      Matching.example_distances Matching.unmatchable_risk_sets 100000
    = Ok ∅.
Proof.
  eexists. split; [vm_compute; reflexivity|].
  assert ({| Matching.lhs := []; Matching.sense := Matching.LpConstraintEQ;
             Matching.rhs := 1 |}
          ∈ Matching.exactly_one_control Matching.unmatchable_risk_sets) as Hrow.
  { by apply (empty_risk_set_row _ 7%Z). }
  split; [|split; [|split]].
  - apply list_elem_of_In. apply list_elem_of_In in Hrow.
    vm_compute in Hrow. vm_compute. tauto.
  - intros x. apply empty_row_infeasible.
    apply list_elem_of_In. apply list_elem_of_In in Hrow.
    vm_compute in Hrow. vm_compute. tauto.
  - vm_compute. reflexivity.
  - vm_compute. reflexivity.
Qed.

(** C4 fails as stated: two treated subjects compete for one control, so the
    program has no solution.  A solver that meets the contract of an exact
    solver and leaves its variables at 1 in that case makes the call return
    a matching in which control 5 is the value for both treated subjects. *)
Lemma optimal_balanced_matching_shares_control :
  Matching.exact_solver Matching.keep_ones_solve ∧
  ∃ matches,
    Matching.optimal_balanced_matching Matching.keep_ones_solve
      Matching.example_distances Matching.contested_risk_sets 100000
    = Ok matches ∧
    matches !! 1%Z = Some 5%Z ∧ matches !! 2%Z = Some 5%Z.
Proof.
  split; [exact keep_ones_solve_exact|].
  exists {[ 1%Z := 5%Z; 2%Z := 5%Z ]}.
  split; [vm_compute; reflexivity|]. split; reflexivity.
Qed.

(** C7 fails as stated: two treated subjects compete for one control, the
    program has no solution, the reference solver reports [Infeasible], and
    the call returns a matching as on success. *)
Lemma infeasible_status_not_surfaced :
  ∃ prob,
    Matching.build_problem Matching.example_distances
      Matching.contested_risk_sets = Ok prob ∧
    (∀ x, ¬ Matching.feasible prob x) ∧
    (Matching.exhaustive_solve prob).1 = LpStatusInfeasible ∧
    Matching.optimal_balanced_matching Matching.exhaustive_solve
      Matching.example_distances Matching.contested_risk_sets 100000
    = Ok ∅.
Proof.
  eexists. split; [vm_compute; reflexivity|].
  split; [|split].
  - match goal with
    | |- ∀ x, ¬ Matching.feasible ?p x =>
        destruct (exhaustive_solve_exact p) as [_ Hex]
    end.
    intros x Hx.
    assert (∃ y, Matching.feasible _ y) as Hst%Hex by by exists x.
    vm_compute in Hst. discriminate Hst.
  - vm_compute. reflexivity.
  - vm_compute. reflexivity.
Qed.

(** ** The distance model *)

Section mahalanobis.
Import Mahalanobis.
Local Open Scope R_scope.

Lemma Rsum_opp (l : list R) : Rsum (Ropp <$> l) = - Rsum l.
Proof.
  induction l as [|a l IH]; csimpl; [lra|]. unfold Rsum in *. simpl.
  rewrite IH. lra.
Qed.

Lemma Rsum_zeros (l : list R) : Forall (λ a, a = 0) l → Rsum l = 0.
Proof.
  induction 1 as [|a l -> _ IH]; simpl; [done|].
  unfold Rsum in *. simpl. rewrite IH. lra.
Qed.

Lemma imap_mult_opp (e : nat → R) (l : list R) :
  imap (λ i a, a * e i) (Ropp <$> l) = Ropp <$> imap (λ i a, a * e i) l.
Proof.
  revert e. induction l as [|a l IH]; intros e; csimpl; [done|].
  f_equal; [lra|]. apply (IH (e ∘ S)).
Qed.

Lemma zip_with_Rminus_swap (u v : list R) :
  zip_with Rminus v u = Ropp <$> zip_with Rminus u v.
Proof.
  revert v. induction u as [|a u IH]; intros [|b v]; csimpl; try done.
  f_equal; [lra|]. apply IH.
Qed.

Lemma zip_with_Rminus_diag (u : list R) :
  Forall (λ a, a = 0) (zip_with Rminus u u).
Proof. induction u as [|a u IH]; simpl; constructor; [lra|done]. Qed.

Lemma Rsum_zip_with_opp (w delta : list R) :
  Rsum (zip_with Rmult (Ropp <$> w) (Ropp <$> delta)) =
  Rsum (zip_with Rmult w delta).
Proof.
  revert delta. induction w as [|a w IH]; intros [|b delta]; csimpl; try done.
  unfold Rsum in *. simpl. rewrite IH. lra.
Qed.

Lemma Rsum_zip_with_zeros (w delta : list R) :
  Forall (λ a, a = 0) delta → Rsum (zip_with Rmult w delta) = 0.
Proof.
  intros Hd. apply Rsum_zeros. revert w.
  induction Hd as [|b delta -> _ IH]; intros [|a w]; simpl; constructor;
    [lra|done].
Qed.

(** The quadratic form does not see the sign of [delta], and is 0 at 0. *)
Lemma quadratic_form_opp (VI : ndarray) (delta : list R) :
  quadratic_form VI (Ropp <$> delta) = quadratic_form VI delta.
Proof.
  unfold quadratic_form. rewrite <-(Rsum_zip_with_opp _ delta).
  f_equal. f_equal. rewrite <-list_fmap_compose. apply list_fmap_ext.
  intros _ j _. simpl. by rewrite imap_mult_opp, Rsum_opp.
Qed.

Lemma quadratic_form_zeros (VI : ndarray) (delta : list R) :
  Forall (λ a, a = 0) delta → quadratic_form VI delta = 0.
Proof. apply Rsum_zip_with_zeros. Qed.

Lemma np_sqrt_nonneg (m : R) : 0 <= m → np_sqrt m = Finite (sqrt m).
Proof. intros Hm. unfold np_sqrt. destruct (Rlt_dec m 0); [lra|done]. Qed.

Lemma mahalanobis_vectors (u v : list R) (VI : ndarray) :
  length u = (shape VI).1 → length v = (shape VI).1 →
  (shape VI).2 = (shape VI).1 →
  mahalanobis [u] [v] VI = Ok (np_sqrt (quadratic_form VI (zip_with Rminus u v))).
Proof.
  intros Hu Hv Hsq. unfold mahalanobis, sub, dot_vector_matrix, dot. simpl.
  rewrite decide_True by congruence. simpl.
  rewrite decide_True by (rewrite length_zip_with; lia). simpl.
  rewrite decide_True; [done|].
  rewrite length_fmap, length_seq, length_zip_with. lia.
Qed.

(** With unique labels, [data.loc[i]] is one row. *)
Lemma filter_label_absent {A} (l : list (Z * A)) (i : Z) :
  i ∉ l.*1 → List.filter (λ r : Z * A, bool_decide (r.1 = i)) l = [].
Proof.
  induction l as [|[j a] l IH]; simpl; [done|].
  rewrite not_elem_of_cons. intros [Hij Hi].
  rewrite bool_decide_eq_false_2 by done. by apply IH.
Qed.

Lemma filter_label_unique {A} (l : list (Z * A)) (i : Z) :
  NoDup l.*1 → i ∈ l.*1 →
  ∃ a, List.filter (λ r : Z * A, bool_decide (r.1 = i)) l = [(i, a)].
Proof.
  induction l as [|[j a] l IH]; simpl; [by intros _ ?%elem_of_nil|].
  rewrite NoDup_cons. intros [Hj Hl] Hi. case_bool_decide as Hji; simpl in *.
  - subst j. exists a. by rewrite filter_label_absent.
  - apply elem_of_cons in Hi as [?|Hi]; [congruence|]. by apply IH.
Qed.

Lemma inner_insert_lookup (v : Z → Z → float) (i0 : Z) (l : list Z)
    (init : gmap (Z * Z) float) (i j : Z) :
  foldl (λ m j, <[(i0, j) := v i0 j]> m) init l !! (i, j) =
    if bool_decide (i = i0 ∧ j ∈ l) then Some (v i j) else init !! (i, j).
Proof.
  revert init. induction l as [|j0 l IH]; intros init; simpl.
  - rewrite bool_decide_eq_false_2; [done|]. by intros [_ ?%elem_of_nil].
  - rewrite IH. rewrite (lookup_insert init (i0, j0) (i, j)).
    repeat (case_bool_decide || case_decide); simplify_eq; try done;
      exfalso; rewrite elem_of_cons in *; intuition congruence.
Qed.

Lemma nested_insert_lookup (v : Z → Z → float) (l1 l2 : list Z)
    (init : gmap (Z * Z) float) (i j : Z) :
  foldl (λ m i, foldl (λ m j, <[(i, j) := v i j]> m) m l2) init l1 !! (i, j) =
    if bool_decide (i ∈ l1 ∧ j ∈ l2) then Some (v i j) else init !! (i, j).
Proof.
  revert init. induction l1 as [|i0 l1 IH]; intros init.
  - rewrite bool_decide_eq_false_2; [done|]. by intros [?%elem_of_nil _].
  - simpl. rewrite IH, inner_insert_lookup.
    repeat case_bool_decide; simplify_eq; try done;
      exfalso; rewrite elem_of_cons in *; intuition congruence.
Qed.

End mahalanobis.

Section mahalanobis_matrix.
Import Mahalanobis.
Local Open Scope R_scope.

Variable linalg_inv : ndarray → result ndarray.
Variables (data : DataFrame) (cov_matrix VI : ndarray).
Hypothesis inv_ok : linalg_inv cov_matrix = Ok VI.
Hypothesis VI_shape :
  shape VI = (length (columns data), length (columns data)).
Hypothesis index_NoDup : NoDup (index data).

Local Abbreviation vector_at := (Mahalanobis.vector_at data).
Local Abbreviation distance_at := (Mahalanobis.distance_at data VI).

Lemma loc_index i : i ∈ index data → loc data i = Ok [vector_at i].
Proof using index_NoDup.
  intros Hi. unfold loc, Mahalanobis.vector_at.
  destruct (filter_label_unique (rows data) i index_NoDup Hi) as [r ->]. done.
Qed.

Lemma length_vector_at i :
  i ∈ index data → length (vector_at i) = length (columns data).
Proof using index_NoDup.
  intros Hi. unfold Mahalanobis.vector_at.
  destruct (filter_label_unique (rows data) i index_NoDup Hi) as [r ->].
  by rewrite length_fmap.
Qed.

Lemma calculate_mahalanobis_matrix_unfold :
  calculate_mahalanobis_matrix linalg_inv data cov_matrix =
    Ok (foldl (λ m i, foldl (λ m j, <[(i, j) := distance_at i j]> m) m
                            (index data))
              ∅ (index data)).
Proof using inv_ok VI_shape index_NoDup.
  unfold calculate_mahalanobis_matrix.
  apply for_each_pure. intros m i Hi.
  apply for_each_pure. intros m' j Hj.
  rewrite !loc_index, inv_ok by done. simpl.
  rewrite mahalanobis_vectors; [done|..]; rewrite ?VI_shape; simpl;
    by rewrite ?length_vector_at.
Qed.


End mahalanobis_matrix.



(** * Further properties *)

(** ** The risk-set builder: keys, errors, order *)

Section risk_sets_more.
Import RiskSets.

Lemma foldl_insert_is_Some {A B} (g : A → B) (l : list (Z * A))
    (init : gmap Z B) (k : Z) :
  is_Some (foldl (λ m '(i, a), <[i := g a]> m) init l !! k) ↔
  k ∈ l.*1 ∨ is_Some (init !! k).
Proof.
  revert init. induction l as [|[i a] l IH]; intros init; csimpl.
  - rewrite elem_of_nil. tauto.
  - rewrite IH, elem_of_cons, lookup_insert_is_Some. split.
    + intros [?|[?|[? ?]]]; auto.
    + destruct (decide (i = k)) as [->|]; intros [[?|?]|?]; auto; congruence.
Qed.

Lemma foldl_insert_absent {A B} (g : A → B) (l : list (Z * A))
    (init : gmap Z B) (k : Z) :
  k ∉ l.*1 → foldl (λ m '(i, a), <[i := g a]> m) init l !! k = init !! k.
Proof.
  revert init. induction l as [|[i a] l IH]; intros init; csimpl; [done|].
  rewrite not_elem_of_cons. intros [Hki Hk].
  rewrite IH by done. by rewrite lookup_insert_ne.
Qed.

Lemma foldl_insert_last {A B} (g : A → B) (l1 l2 : list (Z * A))
    (init : gmap Z B) (k : Z) (a : A) :
  k ∉ l2.*1 →
  foldl (λ m '(i, a), <[i := g a]> m) init (l1 ++ (k, a) :: l2) !! k
    = Some (g a).
Proof.
  intros Hk. rewrite foldl_app. simpl.
  rewrite foldl_insert_absent by done. apply lookup_insert_eq.
Qed.

Lemma filter_sublist {A} (f : A → bool) (l : list A) :
  List.filter f l `sublist_of` l.
Proof.
  induction l as [|a l IH]; simpl; [done|].
  destruct (f a); by constructor.
Qed.

Lemma filter_sublist_mono {A} (f g : A → bool) (l : list A) :
  (∀ a, a ∈ l → f a = true → g a = true) →
  List.filter f l `sublist_of` List.filter g l.
Proof.
  induction l as [|a l IH]; intros Hfg; simpl; [done|].
  assert (List.filter f l `sublist_of` List.filter g l) as Hl.
  { apply IH. intros b Hb. apply Hfg. by right. }
  destruct (f a) eqn:Hf.
  - rewrite (Hfg a) by (done || by left). by constructor.
  - destruct (g a); [by constructor|done].
Qed.

Lemma has_value_0_1 (c : cell) : has_value 1 c → has_value 0 c → False.
Proof.
  intros (q & -> & H1) (q' & [= <-] & H0). rewrite H1 in H0. by vm_compute in H0.
Qed.

(** X1: the keys of the returned mapping are exactly the labels of the
    treated rows; a treated subject is a key whether or not it has an
    eligible control. *)
Theorem create_risk_sets_keys (data : DataFrame)
    (treatment_col time_col : string) :
  treatment_col ∈ columns data → time_col ∈ columns data →
  ∃ risk_sets,
    create_risk_sets data treatment_col time_col = Ok risk_sets ∧
    ∀ k, is_Some (risk_sets !! k) ↔
         ∃ r, r ∈ rows data ∧ r.1 = k ∧ has_value 1 (r.2 treatment_col).
Proof.
  intros Htc Htm. eexists. split; [by apply create_risk_sets_unfold|].
  intros k. unfold loop_result.
  rewrite (foldl_insert_is_Some
             (λ r, controls_at data treatment_col time_col (r time_col))).
  rewrite lookup_empty, list_elem_of_fmap. split.
  - intros [(r & -> & [? ?]%treated_rows_spec)|[? [=]]]. by exists r.
  - intros (r & Hr & <- & Ht). left. exists r. split; [done|].
    by apply treated_rows_spec.
Qed.

Lemma create_risk_sets_keys_witness :
  ∃ risk_sets,
    create_risk_sets late_treatment_data "treatment" "time" = Ok risk_sets ∧
    ∀ k, is_Some (risk_sets !! k) ↔
         ∃ r, r ∈ rows late_treatment_data ∧ r.1 = k ∧
              has_value 1 (r.2 "treatment").
Proof.
  apply (create_risk_sets_keys late_treatment_data "treatment" "time").
  - apply (bool_decide_unpack _); vm_compute; exact I.
  - apply (bool_decide_unpack _); vm_compute; exact I.
Defined.



(** The hypothesis of X2 is about the times as they are compared: on the
    table [rounded_times_data] subject 1 was last seen before the treatment
    of subject 0, and is in its risk set all the same. *)
Example create_risk_sets_rounded_not_empty :
  ∃ risk_sets,
    create_risk_sets rounded_times_data "treatment" "time" = Ok risk_sets ∧
    risk_sets !! 0%Z = Some [1%Z].
Proof. eexists. split; [vm_compute; reflexivity|done]. Qed.

(** X3: the only error is [KeyError], for a column that is not there: always
    for the treatment column, and for the time column as soon as one row is
    treated.  Without a treated row the call returns the empty mapping and
    never reads the time column. *)
Theorem create_risk_sets_key_error (data : DataFrame)
    (treatment_col time_col : string) :
  (treatment_col ∉ columns data →
   create_risk_sets data treatment_col time_col = Raise KeyError) ∧
  (treatment_col ∈ columns data → time_col ∉ columns data →
   (∃ r, r ∈ rows data ∧ has_value 1 (r.2 treatment_col)) →
   create_risk_sets data treatment_col time_col = Raise KeyError) ∧
  (treatment_col ∈ columns data →
   (∀ r, r ∈ rows data → ¬ has_value 1 (r.2 treatment_col)) →
   create_risk_sets data treatment_col time_col = Ok ∅).
Proof.
  split; [|split].
  - intros Htc. unfold create_risk_sets.
    assert (getitem data treatment_col = Raise KeyError) as ->; [|done].
    unfold getitem. by rewrite bool_decide_eq_false_2.
  - intros Htc Htm (r & Hr & Ht). unfold create_risk_sets.
    rewrite (getitem_ok _ _ Htc). simpl.
    assert (r ∈ treated_rows data treatment_col) as Hin
      by by apply treated_rows_spec.
    unfold treated_rows, where_ in Hin. simpl in Hin.
    unfold iterrows. simpl.
    destruct (List.filter _ (rows data)) as [|[i r'] l] eqn:Hrows;
      [by apply elem_of_nil in Hin|].
    simpl. unfold Series_getitem. simpl.
    by rewrite bool_decide_eq_false_2.
  - intros Htc Hnone. unfold create_risk_sets.
    rewrite (getitem_ok _ _ Htc). simpl. unfold iterrows. simpl.
    destruct (List.filter _ (rows data)) as [|r l] eqn:Hrows; [done|].
    assert (r ∈ treated_rows data treatment_col) as Hin.
    { unfold treated_rows, where_. simpl. rewrite Hrows. left. }
    apply treated_rows_spec in Hin as [? ?]. by destruct (Hnone r).
Qed.

(** The three cases of X3 on tables of the file. *)
Example create_risk_sets_key_error_cases :
  create_risk_sets example_data "treated" "time" = Raise KeyError ∧
  create_risk_sets example_data "treatment" "when" = Raise KeyError ∧
  create_risk_sets
    {| columns := ["treatment"];
       dtypes := dtype_of [("treatment", float64)];
       rows := [ row 0 [("treatment", Num 0)]; row 1 [("treatment", NaN)] ] |}
    "treatment" "when" = Ok ∅.
Proof. repeat split; vm_compute; reflexivity. Qed.

(** X4: with unique labels every risk set lists its controls in the order
    of the table, each once. *)
Theorem create_risk_sets_table_order (data : DataFrame)
    (treatment_col time_col : string) :
  treatment_col ∈ columns data → time_col ∈ columns data →
  NoDup (index data) →
  ∃ risk_sets,
    create_risk_sets data treatment_col time_col = Ok risk_sets ∧
    ∀ k controls, risk_sets !! k = Some controls →
      controls `sublist_of` index data ∧ NoDup controls.
Proof.
  intros Htc Htm Hnd. eexists. split; [by apply create_risk_sets_unfold|].
  intros k controls (t & _ & _ & _ & ->)%risk_sets_lookup_inv; [|done].
  assert (controls_at data treatment_col time_col (t.2 time_col)
            `sublist_of` index data) as Hsub.
  { unfold controls_at, index, where_. simpl.
    apply fmap_sublist, filter_sublist. }
  split; [done|]. by eapply sublist_NoDup.
Qed.

Lemma create_risk_sets_table_order_witness :
  ∃ risk_sets,
    create_risk_sets example_data "treatment" "time" = Ok risk_sets ∧
    ∀ k controls, risk_sets !! k = Some controls →
      controls `sublist_of` index example_data ∧ NoDup controls.
Proof.
  apply (create_risk_sets_table_order example_data "treatment" "time").
  - apply (bool_decide_unpack _); vm_compute; exact I.
  - apply (bool_decide_unpack _); vm_compute; exact I.
  - apply (bool_decide_unpack _); vm_compute; exact I.
Defined.

(** X5: with unique labels no treated subject is in a risk set, neither in
    its own nor in that of another treated subject. *)
Theorem create_risk_sets_excludes_treated (data : DataFrame)
    (treatment_col time_col : string) :
  treatment_col ∈ columns data → time_col ∈ columns data →
  NoDup (index data) →
  ∃ risk_sets,
    create_risk_sets data treatment_col time_col = Ok risk_sets ∧
    ∀ r, r ∈ rows data → has_value 1 (r.2 treatment_col) →
      ∀ k controls, risk_sets !! k = Some controls → r.1 ∉ controls.
Proof.
  intros Htc Htm Hnd. eexists. split; [by apply create_risk_sets_unfold|].
  intros [i r] Hin H1 k controls (t & _ & _ & _ & ->)%risk_sets_lookup_inv;
    [|done].
  intros ([j r'] & Hin' & Hj & H0 & _)%controls_at_rows. simpl in *. subst j.
  rewrite (NoDup_fst_agree _ _ _ _ Hnd Hin Hin') in H1.
  by eapply has_value_0_1.
Qed.

Lemma create_risk_sets_excludes_treated_witness :
  ∃ risk_sets,
    create_risk_sets example_data "treatment" "time" = Ok risk_sets ∧
    ∀ r, r ∈ rows example_data → has_value 1 (r.2 "treatment") →
      ∀ k controls, risk_sets !! k = Some controls → r.1 ∉ controls.
Proof.
  apply (create_risk_sets_excludes_treated example_data "treatment" "time").
  - apply (bool_decide_unpack _); vm_compute; exact I.
  - apply (bool_decide_unpack _); vm_compute; exact I.
  - apply (bool_decide_unpack _); vm_compute; exact I.
Defined.

(** X6: risk sets shrink with the treatment time: of two treated subjects,
    the risk set of the one treated later is a sublist of the risk set of
    the one treated earlier (or at the same time). *)
Theorem create_risk_sets_nested (data : DataFrame)
    (treatment_col time_col : string) (t1 t2 : Z * (string → cell))
    (a b : Q) :
  treatment_col ∈ columns data → time_col ∈ columns data →
  NoDup (index data) →
  t1 ∈ rows data → has_value 1 (t1.2 treatment_col) →
  t2 ∈ rows data → has_value 1 (t2.2 treatment_col) →
  t1.2 time_col = Num a → t2.2 time_col = Num b → (a <= b)%Q →
  ∃ risk_sets controls1 controls2,
    create_risk_sets data treatment_col time_col = Ok risk_sets ∧
    risk_sets !! t1.1 = Some controls1 ∧
    risk_sets !! t2.1 = Some controls2 ∧
    controls2 `sublist_of` controls1.
Proof.
  intros Htc Htm Hnd Hin1 Ht1 Hin2 Ht2 Ha Hb Hab. eexists _, _, _.
  split; [by apply create_risk_sets_unfold|].
  split; [by apply risk_sets_lookup_treated|].
  split; [by apply risk_sets_lookup_treated|].
  unfold controls_at, index, where_. simpl. rewrite Ha, Hb.
  destruct (compared_mono data time_col a b Hab) as (a' & b' & -> & -> & Hab').
  apply fmap_sublist, filter_sublist_mono. intros [i r] _. simpl.
  rewrite !andb_true_iff. intros [H0 Hge]. split; [done|].
  destruct (compared data time_col (r time_col)) as [q|]; simpl in *; [|done].
  apply Qle_bool_iff. apply Qle_bool_iff in Hge. by eapply Qle_trans.
Qed.

Lemma create_risk_sets_nested_witness :
  ∃ risk_sets controls1 controls2,
    create_risk_sets example_data "treatment" "time" = Ok risk_sets ∧
    risk_sets !! 3%Z = Some controls1 ∧
    risk_sets !! 7%Z = Some controls2 ∧
    controls2 `sublist_of` controls1.
Proof.
  apply (create_risk_sets_nested example_data "treatment" "time"
           (example_row 3 40 4 1 6) (example_row 7 60 8 1 10) 6 10).
  - apply (bool_decide_unpack _); vm_compute; exact I.
  - apply (bool_decide_unpack _); vm_compute; exact I.
  - apply (bool_decide_unpack _); vm_compute; exact I.
  - do 3 right. left.
  - exists 1%Q. split; reflexivity.
  - do 7 right. left.
  - exists 1%Q. split; reflexivity.
  - reflexivity.
  - reflexivity.
  - vm_compute. discriminate.
Defined.

(** X7: when a label is used by several treated rows, the key keeps the
    risk set of the last of them: [risk_sets[index] = ...] overwrites.  The
    risk set is the one the loop computes from the time of that row, the
    times being compared as the code compares them ([compared]). *)
Theorem create_risk_sets_last_row_wins (data : DataFrame)
    (treatment_col time_col : string) (k : Z) (r : string → cell)
    (before after : list (Z * (string → cell))) :
  treatment_col ∈ columns data → time_col ∈ columns data →
  rows data = before ++ (k, r) :: after →
  has_value 1 (r treatment_col) →
  (∀ r', (k, r') ∈ after → ¬ has_value 1 (r' treatment_col)) →
  ∃ risk_sets,
    create_risk_sets data treatment_col time_col = Ok risk_sets ∧
    risk_sets !! k =
      Some (index (where_ data
                     (λ c, cell_eq (c treatment_col) 0 &&
                           cell_ge (compared data time_col (c time_col))
                                   (compared data time_col (r time_col))))).
Proof.
  intros Htc Htm Hrows Hr Hafter. eexists.
  split; [by apply create_risk_sets_unfold|].
  unfold loop_result, treated_rows, where_. simpl.
  rewrite Hrows, List.filter_app. simpl.
  apply cell_eq_spec in Hr. rewrite Hr.
  rewrite (foldl_insert_last
             (λ r, controls_at data treatment_col time_col (r time_col)));
    [unfold controls_at, where_; by rewrite Hrows|].
  intros ([k' r'] & Hk & Hin%list_elem_of_In%filter_In)%list_elem_of_fmap.
  simpl in *. subst k'. destruct Hin as [Hin%list_elem_of_In Ht%cell_eq_spec].
  by destruct (Hafter r').
Qed.

Lemma create_risk_sets_last_row_wins_witness :
  ∃ risk_sets,
    create_risk_sets relabelled_data "treatment" "time" = Ok risk_sets ∧
    risk_sets !! 5%Z =
      Some (index (where_ relabelled_data
                     (λ c, cell_eq (c "treatment") 0 &&
                           cell_ge
                             (compared relabelled_data "time" (c "time"))
                             (compared relabelled_data "time"
                                (cell_of [("treatment", Num 1); ("time", Num 9)]
                                         "time"))))).
Proof.
  apply (create_risk_sets_last_row_wins relabelled_data "treatment" "time" 5
           (cell_of [("treatment", Num 1); ("time", Num 9)])
           [ row 5 [("treatment", Num 1); ("time", Num 3)];
             row 6 [("treatment", Num 0); ("time", Num 4)] ]
           [ row 7 [("treatment", Num 0); ("time", Num 10)] ]).
  - apply (bool_decide_unpack _); vm_compute; exact I.
  - apply (bool_decide_unpack _); vm_compute; exact I.
  - reflexivity.
  - exists 1%Q. split; reflexivity.
  - intros r' Hin. apply list_elem_of_singleton in Hin.
    injection Hin as Hk _. discriminate Hk.
Defined.

(** The overwritten key of X7, computed: the risk set of the row treated at
    time 9 is kept, the one of the row treated at time 3 is lost. *)
Example create_risk_sets_relabelled :
  create_risk_sets relabelled_data "treatment" "time" = Ok {[ 5%Z := [7%Z] ]}.
Proof. vm_compute. reflexivity. Qed.

End risk_sets_more.

(** ** The sensitivity analyzer: errors and the range of the score *)

Section sensitivity_more.
Import Binary64 Sensitivity.
Local Open Scope Q_scope.


(** X8 at [bias_factor = -1.0]: Python raises, numpy scores [inf]. *)
Example sensitivity_analysis_minus_one :
  sensitivity_analysis {[ 3%Z := 4%Z ]} (PyFloat (Finite (-1)))
    = Raise ZeroDivisionError ∧
  sensitivity_analysis {[ 3%Z := 4%Z ]} (NpFloat64 (Finite (-1)))
    = Ok {[ (3, 4)%Z := NpFloat64 PInf ]}.
Proof. split; vm_compute; reflexivity. Qed.

(** Below 1 the score leaves (0, 1/2]: it is 2.0 at -0.5 and -1.0 at -2.0;
    and at [-1e-17] the sum [1 + bias_factor] rounds to 1.0, so the score
    is 1.0 although the bias factor is negative. *)
Example sensitivity_analysis_out_of_range :
  sensitivity_analysis {[ 3%Z := 4%Z ]} (PyFloat (Finite (-1 # 2)))
    = Ok {[ (3, 4)%Z := PyFloat (Finite 2) ]} ∧
  sensitivity_analysis {[ 3%Z := 4%Z ]} (PyFloat (Finite (-2)))
    = Ok {[ (3, 4)%Z := PyFloat (Finite (-1)) ]} ∧
  sensitivity_analysis {[ 3%Z := 4%Z ]}
      (PyFloat (of_Q (-1 # 100000000000000000)))
    = Ok {[ (3, 4)%Z := PyFloat (Finite 1) ]}.
Proof. vm_compute. repeat split. Qed.

End sensitivity_more.

(** ** The assignment solver: errors, forced and impossible pairs *)

Section matching_more.
Import Matching.
Local Open Scope Q_scope.

Lemma Qsum_singleton {A} (g : A → Q) (a : A) : Qsum g [a] == g a.
Proof. simpl. lra. Qed.

Lemma Qsum_ge_twice {A} (g : A → Q) (l1 l2 l3 : list A) (a : A) :
  (∀ b, b ∈ l1 ++ a :: l2 ++ a :: l3 → 0 <= g b) →
  g a + g a <= Qsum g (l1 ++ a :: l2 ++ a :: l3).
Proof.
  intros Hg. rewrite Qsum_app. simpl. rewrite Qsum_app. simpl.
  assert (0 <= Qsum g l1).
  { apply Qsum_nonneg. intros b Hb. apply Hg. set_unfold. tauto. }
  assert (0 <= Qsum g l2).
  { apply Qsum_nonneg. intros b Hb. apply Hg. set_unfold. tauto. }
  assert (0 <= Qsum g l3).
  { apply Qsum_nonneg. intros b Hb. apply Hg. set_unfold. tauto. }
  lra.
Qed.

(** X10: the only exception is [KeyError], raised exactly when the matrix
    has no entry for some treated subject and one of its eligible controls;
    the solver plays no part in it. *)
Theorem optimal_balanced_matching_key_error (solve : Solver)
    (distance_matrix : gmap (Z * Z) Q) (risk_sets : gmap Z (list Z))
    (penalty_factor : Q) :
  ((∀ t controls c, risk_sets !! t = Some controls → c ∈ controls →
                    is_Some (distance_matrix !! (t, c))) →
   ∃ matches,
     optimal_balanced_matching solve distance_matrix risk_sets penalty_factor
       = Ok matches) ∧
  (∀ t controls c, risk_sets !! t = Some controls → c ∈ controls →
                   distance_matrix !! (t, c) = None →
     optimal_balanced_matching solve distance_matrix risk_sets penalty_factor
       = Raise KeyError).
Proof.
  split.
  - intros Hd. eexists. apply optimal_balanced_matching_unfold.
    apply build_problem_ok. intros t c (cs & ? & ?)%elem_of_pairs. eauto.
  - intros t controls c Hm Hc Hnone. unfold optimal_balanced_matching.
    destruct (build_problem _ _) as [prob|e] eqn:Hb; simpl.
    + apply build_problem_inv in Hb as [Hd _].
      destruct (Hd t c) as [d Hsome]; [|congruence].
      apply elem_of_pairs. by exists controls.
    + apply build_problem_raises in Hb. by subst e.
Qed.

(** The two cases of X10: the matrix of the cohort has every entry; the
    empty matrix has none. *)
Example optimal_balanced_matching_key_error_cases :
  optimal_balanced_matching exhaustive_solve example_distances
    example_risk_sets 100000 = Ok {[ 3%Z := 4%Z; 7%Z := 8%Z ]} ∧
  optimal_balanced_matching exhaustive_solve ∅ example_risk_sets 100000
    = Raise KeyError.
Proof. split; vm_compute; reflexivity. Qed.

(** X11: when no treated subject has an eligible control (in particular
    when there is no treated subject) there is no decision variable, no
    distance is read, and the call returns the empty matching, whatever the
    solver and the matrix are. *)
Theorem optimal_balanced_matching_no_variables (solve : Solver)
    (distance_matrix : gmap (Z * Z) Q) (risk_sets : gmap Z (list Z))
    (penalty_factor : Q) :
  (∀ t controls, risk_sets !! t = Some controls → controls = []) →
  optimal_balanced_matching solve distance_matrix risk_sets penalty_factor
    = Ok ∅.
Proof.
  intros Hempty.
  assert (build_problem distance_matrix risk_sets
          = Ok (problem_of distance_matrix risk_sets)) as Hb.
  { apply build_problem_ok. intros t c (cs & Hm & Hc)%elem_of_pairs.
    rewrite (Hempty _ _ Hm) in Hc. by apply elem_of_nil in Hc. }
  rewrite (optimal_balanced_matching_unfold _ _ _ _ _ Hb). f_equal.
  apply map_eq. intros t. rewrite lookup_empty.
  destruct (extract_matches _ _ !! t) as [c|] eqn:Hl; [|done].
  apply extract_matches_risk_set in Hl as (cs & Hm & Hc & _).
  rewrite (Hempty _ _ Hm) in Hc. by apply elem_of_nil in Hc.
Qed.

Lemma optimal_balanced_matching_no_variables_witness :
  optimal_balanced_matching idle_solve ∅ {[ 7%Z := [] ]} 100000 = Ok ∅.
Proof.
  apply (optimal_balanced_matching_no_variables idle_solve ∅ {[ 7%Z := [] ]}
           100000).
  intros t controls [_ <-]%lookup_singleton_Some. reflexivity.
Defined.

(** X12: when the solver, an exact one, reports [Optimal], a treated subject
    whose risk set holds a single control is matched with that control,
    whatever the distances are. *)
Theorem optimal_balanced_matching_single_control (solve : Solver)
    (distance_matrix : gmap (Z * Z) Q) (risk_sets : gmap Z (list Z))
    (penalty_factor : Q) (prob : LpProblem) (t c : Z) :
  exact_solver solve →
  build_problem distance_matrix risk_sets = Ok prob →
  (solve prob).1 = LpStatusOptimal →
  risk_sets !! t = Some [c] →
  ∃ matches,
    optimal_balanced_matching solve distance_matrix risk_sets penalty_factor
      = Ok matches ∧
    matches !! t = Some c.
Proof.
  intros Hsolve Hb Hst Hm.
  rewrite (optimal_balanced_matching_unfold _ _ _ _ _ Hb).
  destruct (Hsolve prob) as [Hopt _]. destruct (Hopt Hst) as [Hx _].
  apply build_problem_inv in Hb as [_ ->]. apply feasible_rows_hold in Hx.
  eexists. split; [done|].
  destruct (solution_matches_every_key _ _ _ _ Hx Hm) as [c' Hc'].
  rewrite Hc'. apply extract_matches_risk_set in Hc' as (cs & Hm' & Hin & _).
  assert (cs = [c]) as -> by congruence.
  by apply list_elem_of_singleton in Hin as ->.
Qed.

Lemma optimal_balanced_matching_single_control_witness :
  ∃ matches,
    optimal_balanced_matching exhaustive_solve example_distances
      forced_risk_sets 100000 = Ok matches ∧
    matches !! 7%Z = Some 4%Z.
Proof.
  eapply (optimal_balanced_matching_single_control exhaustive_solve
            example_distances forced_risk_sets 100000).
  - exact exhaustive_solve_exact.
  - vm_compute. reflexivity.
  - vm_compute. reflexivity.
  - vm_compute. reflexivity.
Defined.

(** The forced pair of X12 costs subject 3 its nearest control: 3 is matched
    with 5 at distance 2 although 4 is at distance 1. *)
Example optimal_balanced_matching_forced :
  optimal_balanced_matching exhaustive_solve example_distances
    forced_risk_sets 100000 = Ok {[ 3%Z := 5%Z; 7%Z := 4%Z ]}.
Proof. vm_compute. reflexivity. Qed.

(** X13: two treated subjects whose risk sets hold the same single control
    make the program unsolvable: an exact solver does not report [Optimal],
    and the call returns a matching all the same. *)
Theorem optimal_balanced_matching_contested (solve : Solver)
    (distance_matrix : gmap (Z * Z) Q) (risk_sets : gmap Z (list Z))
    (penalty_factor : Q) (prob : LpProblem) (t1 t2 c : Z) :
  build_problem distance_matrix risk_sets = Ok prob →
  risk_sets !! t1 = Some [c] → risk_sets !! t2 = Some [c] → t1 ≠ t2 →
  (∀ x, ¬ feasible prob x) ∧
  (exact_solver solve → (solve prob).1 ≠ LpStatusOptimal) ∧
  ∃ matches,
    optimal_balanced_matching solve distance_matrix risk_sets penalty_factor
      = Ok matches.
Proof.
  intros Hb Hm1 Hm2 Hne.
  assert (∀ x, ¬ feasible prob x) as Hinf.
  { intros x Hx. apply build_problem_inv in Hb as [_ ->].
    apply feasible_rows_hold in Hx.
    destruct (solution_matches_every_key _ _ _ _ Hx Hm1) as [c1 Hc1].
    destruct (solution_matches_every_key _ _ _ _ Hx Hm2) as [c2 Hc2].
    assert (c1 = c) as ->.
    { apply extract_matches_risk_set in Hc1 as (cs & ? & Hin & _).
      assert (cs = [c]) as -> by congruence.
      by apply list_elem_of_singleton in Hin. }
    assert (c2 = c) as ->.
    { apply extract_matches_risk_set in Hc2 as (cs & ? & Hin & _).
      assert (cs = [c]) as -> by congruence.
      by apply list_elem_of_singleton in Hin. }
    by destruct (Hne (solution_one_to_one _ _ _ _ _ Hx Hc1 Hc2)). }
  split; [done|]. split.
  - intros Hsolve Hst. destruct (Hsolve prob) as [Hopt _].
    destruct (Hopt Hst) as [Hx _]. by destruct (Hinf _ Hx).
  - eexists. by apply optimal_balanced_matching_unfold.
Qed.

Lemma optimal_balanced_matching_contested_witness :
  ∃ prob,
    build_problem example_distances contested_risk_sets = Ok prob ∧
    (∀ x, ¬ feasible prob x) ∧
    (exact_solver exhaustive_solve →
     (exhaustive_solve prob).1 ≠ LpStatusOptimal) ∧
    ∃ matches,
      optimal_balanced_matching exhaustive_solve example_distances
        contested_risk_sets 100000 = Ok matches.
Proof.
  eexists. split; [vm_compute; reflexivity|].
  eapply (optimal_balanced_matching_contested exhaustive_solve
            example_distances contested_risk_sets 100000 _ 1 2 5).
  - vm_compute. reflexivity.
  - vm_compute. reflexivity.
  - vm_compute. reflexivity.
  - discriminate.
Defined.

(** X14: a control that a risk set lists twice enters the exactly-one row
    of the treated subject twice, so when the solver, an exact one, reports
    [Optimal], the subject is not matched with that control. *)
Theorem optimal_balanced_matching_repeated_control (solve : Solver)
    (distance_matrix : gmap (Z * Z) Q) (risk_sets : gmap Z (list Z))
    (penalty_factor : Q) (prob : LpProblem) (t c : Z)
    (l1 l2 l3 : list Z) :
  exact_solver solve →
  build_problem distance_matrix risk_sets = Ok prob →
  (solve prob).1 = LpStatusOptimal →
  risk_sets !! t = Some (l1 ++ c :: l2 ++ c :: l3) →
  ∃ matches,
    optimal_balanced_matching solve distance_matrix risk_sets penalty_factor
      = Ok matches ∧
    matches !! t ≠ Some c.
Proof.
  intros Hsolve Hb Hst Hm.
  rewrite (optimal_balanced_matching_unfold _ _ _ _ _ Hb).
  destruct (Hsolve prob) as [Hopt _]. destruct (Hopt Hst) as [Hx _].
  apply build_problem_inv in Hb as [_ ->]. apply feasible_rows_hold in Hx.
  eexists. split; [done|].
  intros (cs & Hm' & _ & Hone)%extract_matches_risk_set.
  destruct Hx as (Hbin & Hsum & _).
  pose proof (Qsum_ge_twice (λ c', (solve (problem_of distance_matrix risk_sets)).2
                                      (t, c')) l1 l2 l3 c) as Hle.
  rewrite (Hsum _ _ Hm), Hone in Hle.
  assert (1 + 1 <= 1); [|lra]. apply Hle.
  intros b Hb. apply binary_nonneg, Hbin, elem_of_pairs. eauto.
Qed.

Lemma optimal_balanced_matching_repeated_control_witness :
  ∃ matches,
    optimal_balanced_matching exhaustive_solve example_distances
      repeated_risk_sets 100000 = Ok matches ∧
    matches !! 3%Z ≠ Some 4%Z.
Proof.
  eapply (optimal_balanced_matching_repeated_control exhaustive_solve
            example_distances repeated_risk_sets 100000 _ 3 4 [] [] [5%Z]).
  - exact exhaustive_solve_exact.
  - vm_compute. reflexivity.
  - vm_compute. reflexivity.
  - vm_compute. reflexivity.
Defined.

(** The run of X14: subject 3 is matched with 5 although 4 is nearer. *)
Example optimal_balanced_matching_repeated :
  optimal_balanced_matching exhaustive_solve example_distances
    repeated_risk_sets 100000 = Ok {[ 3%Z := 5%Z ]}.
Proof. vm_compute. reflexivity. Qed.

(** X15: the matching is read off the variable values alone: for a treated
    subject, the control kept is the last one of its risk set whose variable
    is 1, so a later control overwrites an earlier one when the values of
    the solver leave several at 1. *)
Theorem optimal_balanced_matching_last_control_wins (solve : Solver)
    (distance_matrix : gmap (Z * Z) Q) (risk_sets : gmap Z (list Z))
    (penalty_factor : Q) (prob : LpProblem) (t c : Z)
    (before after : list Z) :
  build_problem distance_matrix risk_sets = Ok prob →
  risk_sets !! t = Some (before ++ c :: after) →
  (solve prob).2 (t, c) == 1 →
  (∀ c', c' ∈ after → ¬ (solve prob).2 (t, c') == 1) →
  optimal_balanced_matching solve distance_matrix risk_sets penalty_factor
    = Ok (extract_matches risk_sets (solve prob).2) ∧
  extract_matches risk_sets (solve prob).2 !! t = Some c.
Proof.
  intros Hb Hm Hone Hafter.
  split; [by apply optimal_balanced_matching_unfold|].
  rewrite extract_matches_lookup, Hm. simpl. unfold chosen.
  rewrite List.filter_app. simpl.
  apply Qeq_bool_iff in Hone. rewrite Hone.
  assert (List.filter (λ c0, Qeq_bool ((solve prob).2 (t, c0)) 1) after = [])
    as ->.
  { destruct (List.filter _ after) as [|c' l] eqn:Hf; [done|].
    assert (c' ∈ List.filter (λ c0, Qeq_bool ((solve prob).2 (t, c0)) 1) after)
      as Hin by (rewrite Hf; left).
    apply list_elem_of_In, filter_In in Hin as [Hin%list_elem_of_In H1].
    apply Qeq_bool_iff in H1. by destruct (Hafter c'). }
  apply last_snoc.
Qed.

Lemma optimal_balanced_matching_last_control_wins_witness :
  optimal_balanced_matching idle_solve example_distances example_risk_sets
    100000
    = Ok (extract_matches example_risk_sets
            (idle_solve (problem_of example_distances example_risk_sets)).2) ∧
  extract_matches example_risk_sets
    (idle_solve (problem_of example_distances example_risk_sets)).2 !! 3%Z
    = Some 9%Z.
Proof.
  apply (optimal_balanced_matching_last_control_wins idle_solve
           example_distances example_risk_sets 100000
           (problem_of example_distances example_risk_sets) 3 9
           [4; 5; 6; 8]%Z []).
  - vm_compute. reflexivity.
  - vm_compute. reflexivity.
  - reflexivity.
  - intros c' Hc'. by apply elem_of_nil in Hc'.
Defined.

(** The run of X15 with the solver that gives up: both treated subjects end
    up with control 9, the last of either risk set. *)
Example optimal_balanced_matching_idle :
  optimal_balanced_matching idle_solve example_distances example_risk_sets
    100000 = Ok {[ 3%Z := 9%Z; 7%Z := 9%Z ]}.
Proof. vm_compute. reflexivity. Qed.

End matching_more.

(** ** The distance model: errors and the value of an entry *)

Lemma for_each_ok_all {A S : Type} (body : S → A → result S)
    (l : list A) (s s' : S) :
  for_each body l s = Ok s' → ∀ x, x ∈ l → ∃ s1 s2, body s1 x = Ok s2.
Proof.
  revert s. induction l as [|a l IH]; intros s; simpl.
  - intros _ x Hx. by apply elem_of_nil in Hx.
  - destruct (body s a) as [s1|] eqn:Hb; simpl; [|done].
    intros Hl x [->|Hx]%elem_of_cons; [by exists s, s1|]. by eapply IH.
Qed.

Section mahalanobis_more.
Import Mahalanobis.
Local Open Scope R_scope.

Lemma loc_in_index (data : DataFrame) (i : Z) :
  i ∈ index data →
  List.filter (λ r : Z * (string → R), bool_decide (r.1 = i)) (rows data) ≠ [] ∧
  loc data i =
    Ok ((λ r : Z * (string → R), r.2 <$> columns data) <$>
          List.filter (λ r : Z * (string → R), bool_decide (r.1 = i))
                      (rows data)).
Proof.
  intros (r & -> & Hr)%list_elem_of_fmap.
  assert (r ∈ List.filter (λ r' : Z * (string → R), bool_decide (r'.1 = r.1))
                          (rows data)) as Hin.
  { apply list_elem_of_In, filter_In. split; [by apply list_elem_of_In|].
    by apply bool_decide_eq_true. }
  unfold loc. destruct (List.filter _ (rows data)) as [|r' l];
    [by apply elem_of_nil in Hin|done].
Qed.

Lemma mahalanobis_raises (u v : list (list R)) (VI : ndarray) (e : exn) :
  mahalanobis u v VI = Raise e → e = ValueError.
Proof.
  unfold mahalanobis, validate_vector, sub, dot_vector_matrix, dot.
  destruct u as [|u [|]]; simpl; try congruence.
  destruct v as [|v [|]]; simpl; try congruence.
  repeat (case_decide; simpl; try congruence).
Qed.

Lemma mahalanobis_not_vector (u v : list (list R)) (VI : ndarray) :
  (2 <= length u)%nat → mahalanobis u v VI = Raise ValueError.
Proof.
  destruct u as [|u1 [|u2 u]]; simpl; [lia..|done].
Qed.

Lemma mahalanobis_bad_shape (u v : list (list R)) (VI : ndarray) (n : nat) :
  Forall (λ w, length w = n) u → Forall (λ w, length w = n) v →
  shape VI ≠ (n, n) → mahalanobis u v VI = Raise ValueError.
Proof.
  intros Hu Hv Hshape.
  destruct (mahalanobis u v VI) as [d|e] eqn:Hm;
    [|by apply mahalanobis_raises in Hm as ->].
  exfalso. unfold mahalanobis, validate_vector, sub, dot_vector_matrix, dot in Hm.
  destruct u as [|u [|]]; simpl in Hm; try congruence.
  destruct v as [|v [|]]; simpl in Hm; try congruence.
  apply Forall_cons in Hu as [Hu _]. apply Forall_cons in Hv as [Hv _].
  repeat (case_decide; simpl in Hm; try congruence).
  rewrite length_fmap, length_seq, length_zip_with in *.
  destruct (shape VI) as [a b]. simpl in *. apply Hshape. f_equal; lia.
Qed.

Lemma repeated_label {A} (l : list (Z * A)) :
  ¬ NoDup l.*1 →
  ∃ k, k ∈ l.*1 ∧
       (2 <= length (List.filter (λ r : Z * A, bool_decide (r.1 = k)) l))%nat.
Proof.
  induction l as [|[i a] l IH]; csimpl; intros Hnd.
  - destruct Hnd. constructor.
  - destruct (decide (i ∈ l.*1)) as [Hi|Hi].
    + exists i. split; [by left|]. rewrite bool_decide_eq_true_2 by done.
      apply list_elem_of_fmap in Hi as ([j b] & -> & Hb). simpl.
      destruct (List.filter _ l) as [|r l'] eqn:Hf; [|simpl; lia].
      assert ((j, b) ∈ List.filter (λ r : Z * A, bool_decide (r.1 = j)) l)
        as Hin.
      { apply list_elem_of_In, filter_In. split; [by apply list_elem_of_In|].
        by apply bool_decide_eq_true. }
      rewrite Hf in Hin. by apply elem_of_nil in Hin.
    + destruct IH as (k & Hk & Hlen).
      { intros Hl. apply Hnd. by constructor. }
      exists k. split; [by right|]. destruct (bool_decide (i = k)); simpl; lia.
Qed.





Lemma for_each_first_raises {A S : Type} (body : S → A → result S)
    (a : A) (l : list A) (s : S) (e : exn) :
  body s a = Raise e → for_each body (a :: l) s = Raise e.
Proof. intros Hb. simpl. by rewrite Hb. Qed.

Lemma index_cons (data : DataFrame) :
  rows data ≠ [] → ∃ i l, index data = i :: l.
Proof.
  unfold index. destruct (rows data) as [|[i r] l]; [done|]. by eexists _, _.
Qed.

(** X16: an empty table gives the empty matrix without [np.linalg.inv] being
    called; with at least one subject, an exception of [np.linalg.inv] (a
    singular covariance matrix) is the exception of the call. *)
Theorem calculate_mahalanobis_matrix_inv_error
    (linalg_inv : ndarray → result ndarray) (data : DataFrame)
    (cov_matrix : ndarray) :
  (rows data = [] →
   calculate_mahalanobis_matrix linalg_inv data cov_matrix = Ok ∅) ∧
  (rows data ≠ [] → ∀ e, linalg_inv cov_matrix = Raise e →
   calculate_mahalanobis_matrix linalg_inv data cov_matrix = Raise e).
Proof.
  split.
  - intros Hrows. unfold calculate_mahalanobis_matrix, index. by rewrite Hrows.
  - intros Hrows e Hinv. destruct (index_cons data Hrows) as (i & l & Hidx).
    assert (i ∈ index data) as Hi by (rewrite Hidx; left).
    unfold calculate_mahalanobis_matrix. rewrite Hidx.
    apply for_each_first_raises, for_each_first_raises.
    destruct (loc_in_index data i Hi) as [_ ->]. simpl.
    by rewrite Hinv.
Qed.

(** The two cases of X16 with an inverse that always fails. *)
Example calculate_mahalanobis_matrix_inv_error_cases :
  calculate_mahalanobis_matrix (λ _, Raise LinAlgError)
    {| columns := ["age"; "severity"]; rows := [] |} example_cov_matrix
    = Ok ∅ ∧
  calculate_mahalanobis_matrix (λ _, Raise LinAlgError)
    example_covariates example_cov_matrix = Raise LinAlgError.
Proof.
  split.
  - apply calculate_mahalanobis_matrix_inv_error. reflexivity.
  - apply calculate_mahalanobis_matrix_inv_error; [discriminate|reflexivity].
Qed.

(** X17: when a label is used by two rows, [data.loc] selects a frame and
    not a vector, and the call raises [ValueError] (the inverse being
    there). *)
Theorem calculate_mahalanobis_matrix_repeated_label
    (linalg_inv : ndarray → result ndarray) (data : DataFrame)
    (cov_matrix VI : ndarray) :
  linalg_inv cov_matrix = Ok VI →
  ¬ NoDup (index data) →
  calculate_mahalanobis_matrix linalg_inv data cov_matrix = Raise ValueError.
Proof.
  intros Hinv Hnd.
  destruct (calculate_mahalanobis_matrix linalg_inv data cov_matrix)
    as [dm|e] eqn:Hc; unfold calculate_mahalanobis_matrix in Hc.
  - exfalso. destruct (repeated_label (rows data) Hnd) as (k & Hk & Hlen).
    destruct (for_each_ok_all _ _ _ _ Hc k Hk) as (s1 & s2 & Houter).
    destruct (for_each_ok_all _ _ _ _ Houter k Hk) as (s3 & s4 & Hinner).
    destruct (loc_in_index data k Hk) as [_ Hloc].
    rewrite Hloc in Hinner. simpl in Hinner. rewrite Hinv in Hinner.
    simpl in Hinner.
    rewrite mahalanobis_not_vector in Hinner by by rewrite length_fmap.
    discriminate Hinner.
  - f_equal.
    apply for_each_raises in Hc as (s1 & i & Hi & Houter).
    apply for_each_raises in Houter as (s2 & j & Hj & Hinner).
    destruct (loc_in_index data i Hi) as [_ Hloci].
    destruct (loc_in_index data j Hj) as [_ Hlocj].
    rewrite Hloci, Hlocj in Hinner. simpl in Hinner.
    rewrite Hinv in Hinner. simpl in Hinner.
    destruct (mahalanobis _ _ VI) as [d|e'] eqn:Hm; simpl in Hinner; [done|].
    injection Hinner as <-. by eapply mahalanobis_raises.
Qed.

Lemma calculate_mahalanobis_matrix_repeated_label_witness :
  calculate_mahalanobis_matrix inv_2x2 repeated_label_covariates
    example_cov_matrix = Raise ValueError.
Proof.
  eapply (calculate_mahalanobis_matrix_repeated_label inv_2x2
            repeated_label_covariates example_cov_matrix).
  - unfold inv_2x2. simpl.
    destruct (Req_dec_T _ 0) as [H|H]; [exfalso; lra|reflexivity].
  - apply (bool_decide_unpack _). vm_compute. exact I.
Defined.

(** X18: with at least one subject, an inverse whose shape is not that of
    the covariate vectors (n x n for n covariates) makes the call raise
    [ValueError]. *)
Theorem calculate_mahalanobis_matrix_bad_shape
    (linalg_inv : ndarray → result ndarray) (data : DataFrame)
    (cov_matrix VI : ndarray) :
  rows data ≠ [] →
  linalg_inv cov_matrix = Ok VI →
  shape VI ≠ (length (columns data), length (columns data)) →
  calculate_mahalanobis_matrix linalg_inv data cov_matrix = Raise ValueError.
Proof.
  intros Hrows Hinv Hshape.
  destruct (index_cons data Hrows) as (i & l & Hidx).
  assert (i ∈ index data) as Hi by (rewrite Hidx; left).
  unfold calculate_mahalanobis_matrix. rewrite Hidx.
  apply for_each_first_raises, for_each_first_raises.
  destruct (loc_in_index data i Hi) as [_ ->]. simpl.
  rewrite Hinv. simpl.
  rewrite (mahalanobis_bad_shape _ _ VI (length (columns data))); [done|..|done];
    apply Forall_fmap, Forall_forall; intros r _; simpl; apply length_fmap.
Qed.

Lemma calculate_mahalanobis_matrix_bad_shape_witness :
  calculate_mahalanobis_matrix inv_2x2 age_only example_cov_matrix
    = Raise ValueError.
Proof.
  eapply (calculate_mahalanobis_matrix_bad_shape inv_2x2 age_only
            example_cov_matrix).
  - discriminate.
  - unfold inv_2x2. simpl.
    destruct (Req_dec_T _ 0) as [H|H]; [exfalso; lra|reflexivity].
  - simpl. intros [= ?].
Defined.

(** X19: with unique labels and an inverse of the right shape, the matrix
    has an entry exactly for the pairs of labels of the table, the entries
    (i, j) and (j, i) hold the same value, a number or [nan], and the entry
    (i, i) is the number 0; no assumption on the sign of the quadratic form
    is needed. *)
Theorem calculate_mahalanobis_matrix_entries
    (linalg_inv : ndarray → result ndarray) (data : DataFrame)
    (cov_matrix VI : ndarray) :
  linalg_inv cov_matrix = Ok VI →
  shape VI = (length (columns data), length (columns data)) →
  NoDup (index data) →
  ∃ dist_matrix,
    calculate_mahalanobis_matrix linalg_inv data cov_matrix = Ok dist_matrix ∧
    ∀ i j,
      (is_Some (dist_matrix !! (i, j)) ↔ i ∈ index data ∧ j ∈ index data) ∧
      dist_matrix !! (i, j) = dist_matrix !! (j, i) ∧
      (i ∈ index data → dist_matrix !! (i, i) = Some (Finite 0)).
Proof.
  intros Hinv Hshape Hnd. eexists.
  split; [by apply calculate_mahalanobis_matrix_unfold|].
  intros i j. rewrite !nested_insert_lookup, !lookup_empty. split; [|split].
  - case_bool_decide; [|by split; [intros [? [=]]|]]. split; [done|by eexists].
  - repeat case_bool_decide; try done; try tauto. f_equal.
    unfold distance_at.
    by rewrite (zip_with_Rminus_swap (vector_at data i) (vector_at data j)),
      quadratic_form_opp.
  - intros Hi. rewrite bool_decide_eq_true_2 by done. f_equal.
    unfold distance_at.
    rewrite (quadratic_form_zeros _ _ (zip_with_Rminus_diag _)).
    rewrite np_sqrt_nonneg by lra. by rewrite sqrt_0.
Qed.

Lemma calculate_mahalanobis_matrix_entries_witness :
  ∃ dist_matrix,
    calculate_mahalanobis_matrix inv_2x2 example_covariates example_cov_matrix
      = Ok dist_matrix ∧
    ∀ i j,
      (is_Some (dist_matrix !! (i, j)) ↔
       i ∈ index example_covariates ∧ j ∈ index example_covariates) ∧
      dist_matrix !! (i, j) = dist_matrix !! (j, i) ∧
      (i ∈ index example_covariates →
       dist_matrix !! (i, i) = Some (Finite 0)).
Proof.
  eapply (calculate_mahalanobis_matrix_entries inv_2x2 example_covariates
            example_cov_matrix).
  - unfold inv_2x2. simpl.
    destruct (Req_dec_T _ 0) as [H|H]; [exfalso; lra|reflexivity].
  - reflexivity.
  - apply (bool_decide_unpack _). vm_compute. exact I.
Defined.





End mahalanobis_more.

(** ** From the risk sets to the matching *)

Section pipeline.
Import RiskSets Matching.






End pipeline.
